(** * loadtest: the concurrent execution engine and its statistics

    A shallow embedding of [main.go]: the [Stats] accumulator, the body of
    [sendRequest] cut at its atomic operations, the [worker] loop, and
    [runLoadTest] with its two channels and its wait group.  Goroutines are
    threads of an interleaving machine: a schedule names which goroutine
    performs its next atomic operation. *)

From Stdlib Require Import ZArith List Lia Bool Ascii.
From stdpp Require Import base numbers option list gmap strings sorting.

(** ** Machine integers and durations *)

Definition min_int64 : Z := (- 2 ^ 63)%Z.
Definition max_int64 : Z := (2 ^ 63 - 1)%Z.

(** The value an [int64] holds after an arithmetic result [z]. *)
Definition wrap64 (z : Z) : Z := ((z + 2 ^ 63) mod 2 ^ 64 - 2 ^ 63)%Z.

Definition int64_range (z : Z) : Prop := (min_int64 <= z <= max_int64)%Z.

(** [time.Duration] is an [int64] count of nanoseconds. *)
Definition Millisecond : Z := 1000000%Z.
Definition Second : Z := 1000000000%Z.
Definition Hour : Z := (3600 * Second)%Z.

(** ** Data model *)

(** [type Config struct]; Go's [int] is taken at 64 bits. *)
Record Config := {
  URL : string;
  NumRequests : Z;
  Concurrency : Z;
  Timeout : Z;
  Method : string;
  Body : string;
  Headers : list string;
  KeepAlive : bool
}.

(** [type Stats struct]: six [atomic.Int64] and one [sync.Map] from status
    code to [int64] count. *)
Record Stats := {
  TotalRequests : Z;
  SuccessfulRequests : Z;
  FailedRequests : Z;
  TotalDuration : Z;
  MinDuration : Z;
  MaxDuration : Z;
  StatusCodes : gmap Z Z
}.

(** [stats := &Stats{}; stats.MinDuration.Store(int64(time.Hour))] in [main]. *)
Definition new_stats : Stats :=
  {| TotalRequests := 0; SuccessfulRequests := 0; FailedRequests := 0;
     TotalDuration := 0; MinDuration := Hour; MaxDuration := 0;
     StatusCodes := ∅ |}.

(** What [client.Do] hands back: a response with its status code, or a
    transport error. *)
Inductive outcome :=
| Response (StatusCode : Z)
| TransportErr.

(** One request attempt: [duration := time.Since(start)] and the pair
    [resp, err]. *)
Record attempt := { duration : Z; result : outcome }.

Definition set_TotalRequests (v : Z) (st : Stats) : Stats :=
  {| TotalRequests := v; SuccessfulRequests := SuccessfulRequests st;
     FailedRequests := FailedRequests st; TotalDuration := TotalDuration st;
     MinDuration := MinDuration st; MaxDuration := MaxDuration st;
     StatusCodes := StatusCodes st |}.

Definition set_SuccessfulRequests (v : Z) (st : Stats) : Stats :=
  {| TotalRequests := TotalRequests st; SuccessfulRequests := v;
     FailedRequests := FailedRequests st; TotalDuration := TotalDuration st;
     MinDuration := MinDuration st; MaxDuration := MaxDuration st;
     StatusCodes := StatusCodes st |}.

Definition set_FailedRequests (v : Z) (st : Stats) : Stats :=
  {| TotalRequests := TotalRequests st; SuccessfulRequests := SuccessfulRequests st;
     FailedRequests := v; TotalDuration := TotalDuration st;
     MinDuration := MinDuration st; MaxDuration := MaxDuration st;
     StatusCodes := StatusCodes st |}.

Definition set_TotalDuration (v : Z) (st : Stats) : Stats :=
  {| TotalRequests := TotalRequests st; SuccessfulRequests := SuccessfulRequests st;
     FailedRequests := FailedRequests st; TotalDuration := v;
     MinDuration := MinDuration st; MaxDuration := MaxDuration st;
     StatusCodes := StatusCodes st |}.

Definition set_MinDuration (v : Z) (st : Stats) : Stats :=
  {| TotalRequests := TotalRequests st; SuccessfulRequests := SuccessfulRequests st;
     FailedRequests := FailedRequests st; TotalDuration := TotalDuration st;
     MinDuration := v; MaxDuration := MaxDuration st;
     StatusCodes := StatusCodes st |}.

Definition set_MaxDuration (v : Z) (st : Stats) : Stats :=
  {| TotalRequests := TotalRequests st; SuccessfulRequests := SuccessfulRequests st;
     FailedRequests := FailedRequests st; TotalDuration := TotalDuration st;
     MinDuration := MinDuration st; MaxDuration := v;
     StatusCodes := StatusCodes st |}.

Definition set_StatusCodes (v : gmap Z Z) (st : Stats) : Stats :=
  {| TotalRequests := TotalRequests st; SuccessfulRequests := SuccessfulRequests st;
     FailedRequests := FailedRequests st; TotalDuration := TotalDuration st;
     MinDuration := MinDuration st; MaxDuration := MaxDuration st;
     StatusCodes := v |}.

(** ** [sendRequest], one atomic operation at a time

    The program points of [sendRequest] between which another goroutine can
    run.  [PMinCAS cur] and [PMaxCAS cur] hold the value the preceding [Load]
    returned; [PMapStore code count] holds what [StatusCodes.Load] returned. *)
Inductive pc :=
| PDo
| PAddTotal
| PAddDuration
| PMinLoad
| PMinCAS (currentMin : Z)
| PMaxLoad
| PMaxCAS (currentMax : Z)
| PClassify
| PMapLoad (code : Z)
| PMapStore (code : Z) (count : option Z)
| PSend.

(** The operation at program point [p] for the attempt [a], on the shared
    [Stats]; the result is the new [Stats] and the next program point.
    [PSend] is the point after [sendRequest] has returned, where the worker
    writes to [results]; it is not a step of [sendRequest]. *)
Definition sendRequest_step (a : attempt) (p : pc) (st : Stats) : Stats * pc :=
  let durationNs := duration a in
  match p with
  | PDo => (st, PAddTotal)
  | PAddTotal => (set_TotalRequests (wrap64 (TotalRequests st + 1)) st, PAddDuration)
  | PAddDuration =>
      (set_TotalDuration (wrap64 (TotalDuration st + durationNs)) st, PMinLoad)
  | PMinLoad =>
      let currentMin := MinDuration st in
      if (durationNs <? currentMin)%Z then (st, PMinCAS currentMin) else (st, PMaxLoad)
  | PMinCAS currentMin =>
      if (MinDuration st =? currentMin)%Z
      then (set_MinDuration durationNs st, PMaxLoad)
      else (st, PMinLoad)
  | PMaxLoad =>
      let currentMax := MaxDuration st in
      if (currentMax <? durationNs)%Z then (st, PMaxCAS currentMax) else (st, PClassify)
  | PMaxCAS currentMax =>
      if (MaxDuration st =? currentMax)%Z
      then (set_MaxDuration durationNs st, PClassify)
      else (st, PMaxLoad)
  | PClassify =>
      match result a with
      | TransportErr => (set_FailedRequests (wrap64 (FailedRequests st + 1)) st, PSend)
      | Response code =>
          (set_SuccessfulRequests (wrap64 (SuccessfulRequests st + 1)) st, PMapLoad code)
      end
  | PMapLoad code => (st, PMapStore code (StatusCodes st !! code))
  | PMapStore code count =>
      match count with
      | Some c => (set_StatusCodes (<[code := wrap64 (c + 1)]> (StatusCodes st)) st, PSend)
      | None => (set_StatusCodes (<[code := 1%Z]> (StatusCodes st)) st, PSend)
      end
  | PSend => (st, PSend)
  end.

(** [sendRequest] run to its return with no other goroutine in between. *)
Fixpoint sendRequest_from (fuel : nat) (a : attempt) (p : pc) (st : Stats) : Stats :=
  match fuel with
  | O => st
  | S fuel' =>
      match p with
      | PSend => st
      | _ => let '(st', p') := sendRequest_step a p st in sendRequest_from fuel' a p' st'
      end
  end.

Definition sendRequest (a : attempt) (st : Stats) : Stats :=
  sendRequest_from 12 a PDo st.

(** The same effect written as straight-line code: what one outcome adds to
    the statistics. *)
Definition record (a : attempt) (st : Stats) : Stats :=
  let d := duration a in
  {| TotalRequests := wrap64 (TotalRequests st + 1);
     SuccessfulRequests :=
       match result a with
       | Response _ => wrap64 (SuccessfulRequests st + 1)
       | TransportErr => SuccessfulRequests st
       end;
     FailedRequests :=
       match result a with
       | Response _ => FailedRequests st
       | TransportErr => wrap64 (FailedRequests st + 1)
       end;
     TotalDuration := wrap64 (TotalDuration st + d);
     MinDuration := if (d <? MinDuration st)%Z then d else MinDuration st;
     MaxDuration := if (MaxDuration st <? d)%Z then d else MaxDuration st;
     StatusCodes :=
       match result a with
       | Response code =>
           match StatusCodes st !! code with
           | Some c => <[code := wrap64 (c + 1)]> (StatusCodes st)
           | None => <[code := 1%Z]> (StatusCodes st)
           end
       | TransportErr => StatusCodes st
       end |}.

(** The serial-equivalent computation over a list of outcomes. *)
Definition record_all (l : list attempt) (st : Stats) : Stats :=
  foldl (fun st a => record a st) st l.

(** ** The goroutines of [runLoadTest] *)

(** A [worker] goroutine: at the head of [for requestNum := range jobs],
    inside [sendRequest] (or at [results <- true]) for a job, at the deferred
    [wg.Done()], or gone. *)
Inductive wstate :=
| WIdle
| WBusy (requestNum : nat) (p : pc)
| WReturning
| WExited.

(** The goroutine that runs [runLoadTest]: the loop starting workers, the
    loop sending jobs, [close(jobs)], the [go func()] of the waiter, the
    [for range results] loop, and the return. *)
Inductive mstate :=
| MSpawn (w : nat)
| MSend (i : nat)
| MClose
| MGo
| MRange
| MDone.

(** The anonymous goroutine [wg.Wait(); close(results)]. *)
Inductive wtstate :=
| WtNone
| WtWait
| WtClose
| WtDone.

(** The shared state of a run.  [calls] and [finished] are instrumentation:
    [calls] lists the (worker, job) pairs in the order [client.Do] was
    invoked, [finished] the jobs whose [sendRequest] returned and whose
    completion was written to [results].  [progress] is what the progress
    loop printed. *)
Record state := {
  main_pc : mstate;
  waiter_pc : wtstate;
  workers : list wstate;
  wg : nat;
  jobs : list nat;
  jobs_closed : bool;
  results : nat;
  results_closed : bool;
  stats : Stats;
  completed : nat;
  progress : list nat;
  calls : list (nat * nat);
  finished : list nat
}.

Definition set_main (v : mstate) (s : state) : state :=
  {| main_pc := v; waiter_pc := waiter_pc s; workers := workers s; wg := wg s;
     jobs := jobs s; jobs_closed := jobs_closed s; results := results s;
     results_closed := results_closed s; stats := stats s;
     completed := completed s; progress := progress s; calls := calls s;
     finished := finished s |}.

Definition set_waiter (v : wtstate) (s : state) : state :=
  {| main_pc := main_pc s; waiter_pc := v; workers := workers s; wg := wg s;
     jobs := jobs s; jobs_closed := jobs_closed s; results := results s;
     results_closed := results_closed s; stats := stats s;
     completed := completed s; progress := progress s; calls := calls s;
     finished := finished s |}.

Definition set_workers (v : list wstate) (s : state) : state :=
  {| main_pc := main_pc s; waiter_pc := waiter_pc s; workers := v; wg := wg s;
     jobs := jobs s; jobs_closed := jobs_closed s; results := results s;
     results_closed := results_closed s; stats := stats s;
     completed := completed s; progress := progress s; calls := calls s;
     finished := finished s |}.

Definition set_wg (v : nat) (s : state) : state :=
  {| main_pc := main_pc s; waiter_pc := waiter_pc s; workers := workers s; wg := v;
     jobs := jobs s; jobs_closed := jobs_closed s; results := results s;
     results_closed := results_closed s; stats := stats s;
     completed := completed s; progress := progress s; calls := calls s;
     finished := finished s |}.

Definition set_jobs (v : list nat) (s : state) : state :=
  {| main_pc := main_pc s; waiter_pc := waiter_pc s; workers := workers s; wg := wg s;
     jobs := v; jobs_closed := jobs_closed s; results := results s;
     results_closed := results_closed s; stats := stats s;
     completed := completed s; progress := progress s; calls := calls s;
     finished := finished s |}.

Definition set_jobs_closed (v : bool) (s : state) : state :=
  {| main_pc := main_pc s; waiter_pc := waiter_pc s; workers := workers s; wg := wg s;
     jobs := jobs s; jobs_closed := v; results := results s;
     results_closed := results_closed s; stats := stats s;
     completed := completed s; progress := progress s; calls := calls s;
     finished := finished s |}.

Definition set_results (v : nat) (s : state) : state :=
  {| main_pc := main_pc s; waiter_pc := waiter_pc s; workers := workers s; wg := wg s;
     jobs := jobs s; jobs_closed := jobs_closed s; results := v;
     results_closed := results_closed s; stats := stats s;
     completed := completed s; progress := progress s; calls := calls s;
     finished := finished s |}.

Definition set_results_closed (v : bool) (s : state) : state :=
  {| main_pc := main_pc s; waiter_pc := waiter_pc s; workers := workers s; wg := wg s;
     jobs := jobs s; jobs_closed := jobs_closed s; results := results s;
     results_closed := v; stats := stats s;
     completed := completed s; progress := progress s; calls := calls s;
     finished := finished s |}.

Definition set_stats (v : Stats) (s : state) : state :=
  {| main_pc := main_pc s; waiter_pc := waiter_pc s; workers := workers s; wg := wg s;
     jobs := jobs s; jobs_closed := jobs_closed s; results := results s;
     results_closed := results_closed s; stats := v;
     completed := completed s; progress := progress s; calls := calls s;
     finished := finished s |}.

Definition set_completed (v : nat) (s : state) : state :=
  {| main_pc := main_pc s; waiter_pc := waiter_pc s; workers := workers s; wg := wg s;
     jobs := jobs s; jobs_closed := jobs_closed s; results := results s;
     results_closed := results_closed s; stats := stats s;
     completed := v; progress := progress s; calls := calls s;
     finished := finished s |}.

Definition set_progress (v : list nat) (s : state) : state :=
  {| main_pc := main_pc s; waiter_pc := waiter_pc s; workers := workers s; wg := wg s;
     jobs := jobs s; jobs_closed := jobs_closed s; results := results s;
     results_closed := results_closed s; stats := stats s;
     completed := completed s; progress := v; calls := calls s;
     finished := finished s |}.

Definition set_calls (v : list (nat * nat)) (s : state) : state :=
  {| main_pc := main_pc s; waiter_pc := waiter_pc s; workers := workers s; wg := wg s;
     jobs := jobs s; jobs_closed := jobs_closed s; results := results s;
     results_closed := results_closed s; stats := stats s;
     completed := completed s; progress := progress s; calls := v;
     finished := finished s |}.

Definition set_finished (v : list nat) (s : state) : state :=
  {| main_pc := main_pc s; waiter_pc := waiter_pc s; workers := workers s; wg := wg s;
     jobs := jobs s; jobs_closed := jobs_closed s; results := results s;
     results_closed := results_closed s; stats := stats s;
     completed := completed s; progress := progress s; calls := calls s;
     finished := v |}.

Definition set_worker (w : nat) (v : wstate) (s : state) : state :=
  set_workers (<[w := v]> (workers s)) s.

(** Goroutine identifiers, the letters of a schedule. *)
Inductive tid :=
| TMain
| TWaiter
| TWorker (w : nat).

(** ** Bookkeeping over the worker list *)

(** How far into [sendRequest] a program point is: the number of the
    statistics updates already performed. *)
Definition stage (p : pc) : nat :=
  match p with
  | PDo => 0
  | PAddTotal => 1
  | PAddDuration => 2
  | PMinLoad | PMinCAS _ => 3
  | PMaxLoad | PMaxCAS _ => 4
  | PClassify => 5
  | PMapLoad _ | PMapStore _ _ => 6
  | PSend => 7
  end.

(** The job of a worker that is at stage [k] or later. *)
Definition wpast (k : nat) (w : wstate) : list nat :=
  match w with
  | WBusy requestNum p => if k <=? stage p then [requestNum] else []
  | _ => []
  end.

(** The jobs in flight at stage [k] or later. *)
Definition past (k : nat) (ws : list wstate) : list nat := ws ≫= wpast k.

(** Sum of [f] over a list of jobs. *)
Definition tally (f : nat -> Z) (l : list nat) : Z :=
  foldr (fun j acc => (f j + acc)%Z) 0%Z l.

Definition alive (w : wstate) : nat :=
  match w with WExited => 0 | _ => 1 end.

Definition running (w : wstate) : Prop :=
  match w with WIdle | WBusy _ _ => True | _ => False end.

Definition exited (w : wstate) : Prop := w = WExited.

Section Engine.

(** The run's configuration and the request executor's answers: [exec i]
    is what the attempt for job [i] measures and receives. *)
Variable cfg : Config.
Variable exec : nat -> attempt.

(** State on entry to the worker-starting loop of [runLoadTest]: both
    channels made empty and open, no goroutine started, and the [Stats]
    as [main] passes them. *)
Definition init : state :=
  {| main_pc := MSpawn 0; waiter_pc := WtNone; workers := []; wg := 0;
     jobs := []; jobs_closed := false; results := 0; results_closed := false;
     stats := new_stats; completed := 0; progress := []; calls := []; finished := [] |}.

(** [func worker]: receive on [jobs], run [sendRequest] one operation at a
    time, send on [results]; the deferred [wg.Done()] once [jobs] is closed
    and drained.  [None]: the goroutine does not exist, is blocked, or has
    ended.  Both channels have capacity [config.NumRequests]. *)
Definition worker_step (w : nat) (s : state) : option state :=
  match workers s !! w with
  | None => None
  | Some WExited => None
  | Some WIdle =>
      match jobs s with
      | requestNum :: rest => Some (set_worker w (WBusy requestNum PDo) (set_jobs rest s))
      | [] => if jobs_closed s then Some (set_worker w WReturning s) else None
      end
  | Some WReturning => Some (set_worker w WExited (set_wg (pred (wg s)) s))
  | Some (WBusy requestNum PSend) =>
      if (Z.of_nat (results s) <? NumRequests cfg)%Z
      then Some (set_worker w WIdle
                   (set_results (S (results s))
                      (set_finished (requestNum :: finished s) s)))
      else None
  | Some (WBusy requestNum p) =>
      let '(st', p') := sendRequest_step (exec requestNum) p (stats s) in
      let s' := set_worker w (WBusy requestNum p') (set_stats st' s) in
      match p with
      | PDo => Some (set_calls (calls s ++ [(w, requestNum)]) s')
      | _ => Some s'
      end
  end.

(** The goroutine of [runLoadTest] itself. *)
Definition main_step (s : state) : option state :=
  match main_pc s with
  | MSpawn w =>
      if (Z.of_nat w <? Concurrency cfg)%Z
      then Some (set_main (MSpawn (S w))
                   (set_workers (workers s ++ [WIdle]) (set_wg (S (wg s)) s)))
      else Some (set_main (MSend 0) s)
  | MSend i =>
      if (Z.of_nat i <? NumRequests cfg)%Z
      then if (Z.of_nat (length (jobs s)) <? NumRequests cfg)%Z
           then Some (set_main (MSend (S i)) (set_jobs (jobs s ++ [i]) s))
           else None
      else Some (set_main MClose s)
  | MClose => Some (set_main MGo (set_jobs_closed true s))
  | MGo => Some (set_main MRange (set_waiter WtWait s))
  | MRange =>
      match results s with
      | S r =>
          let completed' := S (completed s) in
          let s' := set_main MRange (set_completed completed' (set_results r s)) in
          if Nat.eqb (completed' mod 100) 0
          then Some (set_progress (progress s ++ [completed']) s')
          else Some s'
      | O => if results_closed s then Some (set_main MDone s) else None
      end
  | MDone => None
  end.

(** [go func() { wg.Wait(); close(results) }()]. *)
Definition waiter_step (s : state) : option state :=
  match waiter_pc s with
  | WtNone => None
  | WtWait => if Nat.eqb (wg s) 0 then Some (set_waiter WtClose s) else None
  | WtClose => Some (set_waiter WtDone (set_results_closed true s))
  | WtDone => None
  end.

Definition step (t : tid) (s : state) : option state :=
  match t with
  | TMain => main_step s
  | TWaiter => waiter_step s
  | TWorker w => worker_step w s
  end.

(** A schedule is the list of goroutines chosen in turn; choosing one that
    cannot move leaves the state as it is. *)
Definition run (sched : list tid) (s : state) : state :=
  foldl (fun s t => default s (step t s)) s sched.

(** [runLoadTest] has returned. *)
Definition returned (s : state) : Prop := main_pc s = MDone.


(** *** Quantities the invariants speak about *)

Definition n_jobs : nat := Z.to_nat (NumRequests cfg).
Definition n_workers : nat := Z.to_nat (Concurrency cfg).

Definition dur (j : nat) : Z := duration (exec j).

Definition ok (j : nat) : Z :=
  match result (exec j) with Response _ => 1%Z | TransportErr => 0%Z end.

Definition err (j : nat) : Z :=
  match result (exec j) with Response _ => 0%Z | TransportErr => 1%Z end.

(** The job indices the sending loop has not yet written to [jobs]. *)
Definition unsent (m : mstate) : list nat :=
  match m with
  | MSpawn _ => seq 0 n_jobs
  | MSend i => seq i (n_jobs - i)
  | _ => []
  end.

(** What a worker at a compare-and-swap knows from its [Load]. *)
Definition cas_sound (w : wstate) : Prop :=
  match w with
  | WBusy j (PMinCAS cur) => (dur j < cur)%Z
  | WBusy j (PMaxCAS cur) => (cur < dur j)%Z
  | _ => True
  end.

(** The invariant of every reachable state of a run. *)
Record inv (s : state) : Prop := {
  inv_len :
    match main_pc s with
    | MSpawn w => length (workers s) = w /\ w <= n_workers
    | _ => length (workers s) = n_workers
    end;
  inv_phase :
    match main_pc s with
    | MSpawn _ | MSend _ | MClose => jobs_closed s = false /\ waiter_pc s = WtNone
    | MGo => jobs_closed s = true /\ waiter_pc s = WtNone
    | MRange | MDone => jobs_closed s = true /\ waiter_pc s <> WtNone
    end;
  inv_rclosed : results_closed s = true <-> waiter_pc s = WtDone;
  inv_wg0 : waiter_pc s = WtClose \/ waiter_pc s = WtDone -> wg s = 0;
  inv_wg : wg s = sum_list_with alive (workers s);
  inv_done : main_pc s = MDone -> results_closed s = true /\ results s = 0;
  inv_open : jobs_closed s = false -> Forall running (workers s);
  inv_queue : jobs s <> [] -> Forall running (workers s);
  inv_fin : length (finished s) = results s + completed s;
  inv_jobs :
    unsent (main_pc s) ++ jobs s ++ past 0 (workers s) ++ finished s ≡ₚ seq 0 n_jobs;
  inv_calls : (calls s).*2 ≡ₚ past 1 (workers s) ++ finished s;
  inv_callers : Forall (fun c => c.1 < length (workers s)) (calls s);
  inv_total :
    TotalRequests (stats s) =
    wrap64 (tally (fun _ => 1%Z) (past 2 (workers s)) + tally (fun _ => 1%Z) (finished s));
  inv_duration :
    TotalDuration (stats s) =
    wrap64 (tally dur (past 3 (workers s)) + tally dur (finished s));
  inv_succ :
    SuccessfulRequests (stats s) =
    wrap64 (tally ok (past 6 (workers s)) + tally ok (finished s));
  inv_fail :
    FailedRequests (stats s) =
    wrap64 (tally err (past 6 (workers s)) + tally err (finished s));
  inv_cas : Forall cas_sound (workers s);
  inv_min_le :
    Forall (fun j => (MinDuration (stats s) <= dur j)%Z) (past 4 (workers s) ++ finished s);
  inv_min_in :
    MinDuration (stats s) = Hour \/
    exists j, j ∈ past 1 (workers s) ++ finished s /\ MinDuration (stats s) = dur j;
  inv_min_hour : (MinDuration (stats s) <= Hour)%Z;
  inv_max_le :
    Forall (fun j => (dur j <= MaxDuration (stats s))%Z) (past 5 (workers s) ++ finished s);
  inv_max_in :
    MaxDuration (stats s) = 0%Z \/
    exists j, j ∈ past 1 (workers s) ++ finished s /\ MaxDuration (stats s) = dur j;
  inv_max_zero : (0 <= MaxDuration (stats s))%Z
}.

(** What a worker between [SuccessfulRequests.Add] and the end of the
    histogram update knows: the status code it carries is its response's. *)
Definition map_sound (w : wstate) : Prop :=
  match w with
  | WBusy j (PMapLoad code) => result (exec j) = Response code
  | WBusy j (PMapStore code _) => result (exec j) = Response code
  | _ => True
  end.

(** Every histogram bucket was created for a job that received a response
    with that status code. *)
Record hist_inv (s : state) : Prop := {
  hist_workers : Forall map_sound (workers s);
  hist_keys :
    forall code c, StatusCodes (stats s) !! code = Some c ->
    exists j, j ∈ past 6 (workers s) ++ finished s /\ result (exec j) = Response code
}.

(** *** A bound on the operations still to come

    A failed compare-and-swap sends a worker back to its [Load].  It fails
    only when another worker's compare-and-swap succeeded in between, and each
    job succeeds at most once per extreme, so every job carries a reserve that
    pays for the retries it can cause in the other workers. *)

Definition retry_reserve : nat := 2 * n_workers + 2.

Definition pc_weight (mn mx : Z) (p : pc) : nat :=
  match p with
  | PSend => 2
  | PMapStore _ _ => 3
  | PMapLoad _ => 4
  | PClassify => 5
  | PMaxCAS cur => (if (mx =? cur)%Z then 1 else 3) + retry_reserve + 5
  | PMaxLoad => retry_reserve + 7
  | PMinCAS cur => (if (mn =? cur)%Z then 1 else 3) + 2 * retry_reserve + 7
  | PMinLoad => 2 * retry_reserve + 9
  | PAddDuration => 2 * retry_reserve + 10
  | PAddTotal => 2 * retry_reserve + 11
  | PDo => 2 * retry_reserve + 12
  end.

Definition worker_weight (mn mx : Z) (w : wstate) : nat :=
  match w with
  | WExited => 0
  | WReturning => 1
  | WIdle => 2
  | WBusy _ p => pc_weight mn mx p + 2
  end.

Definition job_weight : nat := 2 * retry_reserve + 13.

Definition main_weight (m : mstate) : nat :=
  match m with
  | MDone => 0
  | MRange => 1
  | MGo => 4
  | MClose => 5
  | MSend i => (n_jobs - i) * (job_weight + 1) + 6
  | MSpawn w => (n_workers - w) * 3 + n_jobs * (job_weight + 1) + 7
  end.

Definition waiter_weight (w : wtstate) : nat :=
  match w with
  | WtNone => 0
  | WtWait => 2
  | WtClose => 1
  | WtDone => 0
  end.

Definition measure (s : state) : nat :=
  main_weight (main_pc s) + waiter_weight (waiter_pc s)
  + sum_list_with (worker_weight (MinDuration (stats s)) (MaxDuration (stats s)))
      (workers s)
  + length (jobs s) * job_weight + results s.

(** The moves of a worker, as a relation: the cases of [worker_step]. *)
Inductive worker_move (w : nat) (s : state) : state -> Prop :=
| move_recv j rest :
    workers s !! w = Some WIdle -> jobs s = j :: rest ->
    worker_move w s (set_worker w (WBusy j PDo) (set_jobs rest s))
| move_closed :
    workers s !! w = Some WIdle -> jobs s = [] -> jobs_closed s = true ->
    worker_move w s (set_worker w WReturning s)
| move_exit :
    workers s !! w = Some WReturning ->
    worker_move w s (set_worker w WExited (set_wg (pred (wg s)) s))
| move_send j :
    workers s !! w = Some (WBusy j PSend) ->
    (Z.of_nat (results s) < NumRequests cfg)%Z ->
    worker_move w s
      (set_worker w WIdle (set_results (S (results s)) (set_finished (j :: finished s) s)))
| move_request j p st' p' :
    workers s !! w = Some (WBusy j p) -> p <> PSend ->
    sendRequest_step (exec j) p (stats s) = (st', p') ->
    worker_move w s
      (set_calls (calls s ++ match p with PDo => [(w, j)] | _ => [] end)
         (set_worker w (WBusy j p') (set_stats st' s))).

(** A run of effective steps: every goroutine named could move. *)
Inductive steps : state -> list tid -> state -> Prop :=
| steps_nil s : steps s [] s
| steps_cons s t s' sched s'' :
    step t s = Some s' -> steps s' sched s'' -> steps s (t :: sched) s''.

(** States a run of [runLoadTest] can be in. *)
Definition reachable (s : state) : Prop := exists sched, s = run sched init.

End Engine.

(** ** The report *)

(** [avgDuration] of [printResults]: Go's integer division truncates. *)
Definition avgDuration (st : Stats) : Z := Z.quot (TotalDuration st) (TotalRequests st).

(** Sum of all bucket counts of the status-code histogram. *)
Definition histogram_total (m : gmap Z Z) : Z :=
  map_fold (fun _ count acc => (count + acc)%Z) 0%Z m.

(** Smallest and largest of the sentinel and a list of durations. *)
Definition min_over (l : list Z) : Z := foldr Z.min Hour l.
Definition max_over (l : list Z) : Z := foldr Z.max 0%Z l.

(** ** Making the channels *)




(** ** The request template and its copies *)

(** A [bytes.Buffer]: its bytes and the offset of the first unread one. *)
Record Buffer := { buf : string; off : nat }.

(** [Buffer.Len] counts, and [Buffer.Bytes] returns, the bytes not read yet. *)
Definition unread (b : Buffer) : string :=
  String.substring (off b) (String.length (buf b) - off b) (buf b).

(** The part of an [http.Request] the program and the transport touch.
    [req_Body] is the address of the body reader in the store of buffers:
    copying the struct copies the address, not the buffer ([None] is no body
    or [http.NoBody]).  [GetBody], when set, holds the bytes it makes a new
    reader of at each call. *)
Record Request := {
  req_Method : string;
  req_URL : string;
  Header : gmap string (list string);
  req_Body : option nat;
  ContentLength : Z;
  GetBody : option string
}.

Definition set_Header (v : gmap string (list string)) (r : Request) : Request :=
  {| req_Method := req_Method r; req_URL := req_URL r; Header := v;
     req_Body := req_Body r; ContentLength := ContentLength r; GetBody := GetBody r |}.

(** [strings.HasPrefix] and [strings.Contains] for a one-byte pattern. *)
Definition HasPrefix (s prefix : string) : bool := String.prefix prefix s.

Fixpoint ContainsByte (s : string) (c : Ascii.ascii) : bool :=
  match s with
  | EmptyString => false
  | String a rest => Ascii.eqb a c || ContainsByte rest c
  end.

(** [strings.SplitN(header, ":", 2)]: [Some (before, after)] when the result
    has two parts, [None] when the separator is absent and it has one. *)
Fixpoint SplitN2 (s : string) : option (string * string) :=
  match s with
  | EmptyString => None
  | String a rest =>
      if Ascii.eqb a ":"%char then Some (EmptyString, rest)
      else match SplitN2 rest with
           | Some (before, after) => Some (String a before, after)
           | None => None
           end
  end.

Section Template.

(** Library functions the template is built with, taken as they are:
    the method check and the URL parser of [http.NewRequestWithContext],
    the key normalisation of [Header.Set], and [strings.TrimSpace]. *)
Variable validMethod : string -> bool.
Variable url_Parse : string -> option string.
Variable CanonicalMIMEHeaderKey : string -> string.
Variable TrimSpace : string -> string.

(** [http.NewRequestWithContext(context.Background(), method, url, body)]:
    an empty method means GET; an invalid method or an unparsable URL is an
    error ([None]); the request holds the reader it was given.  For a
    [*bytes.Buffer] it also takes [ContentLength] from [Buffer.Len] and a
    [GetBody] over [Buffer.Bytes], and a buffer with nothing to read is
    replaced by [http.NoBody]. *)
Definition NewRequestWithContext (method url : string) (body : option nat)
    (store : list Buffer) : option Request :=
  let method := if decide (method = EmptyString) then "GET"%string else method in
  if validMethod method then
    match url_Parse url with
    | Some u =>
        Some match body ≫= (store !!.) with
             | Some b =>
                 if decide (unread b = EmptyString)
                 then {| req_Method := method; req_URL := u; Header := ∅;
                         req_Body := None; ContentLength := 0;
                         GetBody := Some EmptyString |}
                 else {| req_Method := method; req_URL := u; Header := ∅;
                         req_Body := body;
                         ContentLength := Z.of_nat (String.length (unread b));
                         GetBody := Some (unread b) |}
             | None =>
                 {| req_Method := method; req_URL := u; Header := ∅;
                    req_Body := None; ContentLength := 0; GetBody := None |}
             end
    | None => None
    end
  else None.

(** [req.Header.Set(key, value)]. *)
Definition Header_Set (key value : string) (r : Request) : Request :=
  set_Header (<[CanonicalMIMEHeaderKey key := [value]]> (Header r)) r.

(** The loop over [config.Headers]. *)
Definition add_custom_header (r : Request) (header : string) : Request :=
  match SplitN2 header with
  | Some (key, value) => Header_Set (TrimSpace key) (TrimSpace value) r
  | None => r
  end.

(** [func createBaseRequest], on the store of buffers: the request and the
    store after [bytes.NewBufferString], or [None] for the error. *)
Definition createBaseRequest (config : Config) (store : list Buffer)
  : option (Request * list Buffer) :=
  let '(body, store') :=
    if decide (Body config = EmptyString) then (None, store)
    else (Some (length store), store ++ [{| buf := Body config; off := 0 |}]) in
  match NewRequestWithContext (Method config) (URL config) body store' with
  | None => None
  | Some req =>
      let req := Header_Set "User-Agent" "Go-Load-Tester/1.24" req in
      let req := Header_Set "Accept" "*/*" req in
      let req := Header_Set "Connection" "keep-alive" req in
      let req :=
        if decide (Body config = EmptyString) then req
        else if HasPrefix (Body config) "{" || HasPrefix (Body config) "["
        then Header_Set "Content-Type" "application/json" req
        else if ContainsByte (Body config) "&"%char && ContainsByte (Body config) "="%char
        then Header_Set "Content-Type" "application/x-www-form-urlencoded" req
        else Header_Set "Content-Type" "text/plain" req in
      Some (foldl add_custom_header req (Headers config), store')
  end.

(** [baseReq.Clone(ctx)]: the header map is copied; the body reader is the
    same one, and so are [ContentLength] and [GetBody]. *)
Definition Clone (r : Request) : Request :=
  {| req_Method := req_Method r; req_URL := req_URL r; Header := Header r;
     req_Body := req_Body r; ContentLength := ContentLength r; GetBody := GetBody r |}.





End Template.

(** ** The HTTP client *)

Record Transport := {
  InsecureSkipVerify : bool;
  MaxIdleConns : Z;
  MaxIdleConnsPerHost : Z;
  MaxConnsPerHost : Z;
  IdleConnTimeout : Z;
  ResponseHeaderTimeout : Z;
  DisableKeepAlives : bool
}.

Record Client := { ClientTimeout : Z; ClientTransport : Transport }.

(** [func createHTTPClient]; products of [int]s and of durations wrap. *)
Definition createHTTPClient (config : Config) : Client :=
  {| ClientTimeout := wrap64 (Timeout config * Second);
     ClientTransport :=
       {| InsecureSkipVerify := true;
          MaxIdleConns := wrap64 (Concurrency config * 2);
          MaxIdleConnsPerHost := wrap64 (Concurrency config * 2);
          MaxConnsPerHost := wrap64 (Concurrency config * 2);
          IdleConnTimeout := wrap64 (90 * Second);
          ResponseHeaderTimeout := wrap64 (Timeout config * Second);
          DisableKeepAlives := negb (KeepAlive config) |} |}.

(** *** What [client.Do] does with the body *)

(** The body was written to the connection, or the transport gave up with
    [http: ContentLength=%d with Body length %d]. *)
Inductive sent :=
| Sent (body : string)
| BodyLengthError (content_length body_length : Z).

(** Reading the reader at an address to its end: [Buffer.Read] hands out
    the unread bytes and, at the end, resets the buffer. *)
Definition read_all (l : nat) (store : list Buffer) : string * list Buffer :=
  match store !! l with
  | Some b => (unread b, <[l := {| buf := EmptyString; off := 0 |}]> store)
  | None => (EmptyString, store)
  end.

(** [transferWriter.writeBody] of [net/http]: the body is copied from its
    reader to the connection's write buffer, and a count of bytes other than
    [ContentLength] is an error. *)
Definition writeBody (r : Request) (store : list Buffer) : sent * list Buffer :=
  match req_Body r with
  | None => (Sent EmptyString, store)
  | Some l =>
      let '(bytes, store') := read_all l store in
      if decide (ContentLength r = Z.of_nat (String.length bytes))
      then (Sent bytes, store')
      else (BodyLengthError (ContentLength r) (Z.of_nat (String.length bytes)), store')
  end.

(** [Transport.roundTrip] on a connection that is fresh or [reused]: an
    error of [writeBody] leaves the write buffer unsent; after it, on a
    reused connection ([persistConn.shouldRetryRequest]) the body is rewound
    with [GetBody] ([rewindBody]) and the request sent again, and on a fresh
    one the error is what [client.Do] returns. *)
Definition roundTrip (reused : bool) (r : Request) (store : list Buffer)
  : sent * list Buffer :=
  match writeBody r store with
  | (BodyLengthError content_length body_length, store') =>
      match GetBody r with
      | Some bytes =>
          if reused then
            if decide (content_length = Z.of_nat (String.length bytes))
            then (Sent bytes, store')
            else (BodyLengthError content_length (Z.of_nat (String.length bytes)), store')
          else (BodyLengthError content_length body_length, store')
      | None => (BodyLengthError content_length body_length, store')
      end
  | done => done
  end.

(** [client.Do(req)], as far as the body goes.  [idle] says whether an idle
    connection to the host is at hand; with [DisableKeepAlives] no connection
    is kept, so none is reused. *)
Definition Do (client : Client) (idle : bool) (r : Request) (store : list Buffer)
  : sent * list Buffer :=
  roundTrip (negb (DisableKeepAlives (ClientTransport client)) && idle) r store.

(** *** The connections to the host *)

(** The connections to one host under [MaxConnsPerHost], after
    [Transport.queueForDial] and [Transport.decConnsPerHost] of [net/http]:
    with a limit of zero or less every dial starts at once; with a positive
    limit a dial starts while fewer connections than the limit are counted
    (being dialled, in use or idle) and waits otherwise, and a connection
    that closes hands its place to a waiting dial, if there is one. *)
Record conns := { open : Z; waiting : Z }.

Inductive conn_event :=
| ConnDial
| ConnClose.

Definition queueForDial (t : Transport) (c : conns) : conns :=
  if (MaxConnsPerHost t <=? 0)%Z then {| open := open c + 1; waiting := waiting c |}
  else if (open c <? MaxConnsPerHost t)%Z
       then {| open := open c + 1; waiting := waiting c |}
       else {| open := open c; waiting := waiting c + 1 |}.

Definition decConnsPerHost (t : Transport) (c : conns) : conns :=
  if (open c <=? 0)%Z then c
  else if (0 <? MaxConnsPerHost t)%Z && (0 <? waiting c)%Z
       then {| open := open c; waiting := waiting c - 1 |}
       else {| open := open c - 1; waiting := waiting c |}.

Definition conn_step (t : Transport) (c : conns) (e : conn_event) : conns :=
  match e with
  | ConnDial => queueForDial t c
  | ConnClose => decConnsPerHost t c
  end.

Definition conns_after (t : Transport) (events : list conn_event) : conns :=
  foldl (conn_step t) {| open := 0; waiting := 0 |} events.

(** ** Concrete runs *)

Definition config_of (n c : Z) (body : string) : Config :=
  {| URL := "http://localhost:3000/api/users"; NumRequests := n; Concurrency := c;
     Timeout := 30; Method := "GET"; Body := body; Headers := []; KeepAlive := true |}.

(** A schedule that lets worker 0 do all the work: [runLoadTest] starts the
    workers and queues the jobs, worker 0 drains the queue, the others find it
    closed, the waiter closes [results], the progress loop drains it. *)
Definition others_leave (c : nat) : list tid :=
  flat_map (fun w => [TWorker w; TWorker w]) (seq 1 (c - 1)).

Definition sequential (n c : nat) : list tid :=
  repeat TMain (c + n + 4) ++ repeat (TWorker 0) (12 * n + 2) ++ others_leave c
  ++ [TWaiter; TWaiter] ++ repeat TMain (n + 1).

(** A schedule on which workers 0 and 1 both read the histogram bucket
    before either writes it (worker 0 needs ten operations to get there,
    worker 1 eight, as the extremes are already set when the durations are
    equal); worker 0 then does the rest of the work. *)
Definition overlapping (n c : nat) : list tid :=
  repeat TMain (c + n + 4)
  ++ repeat (TWorker 0) 10 ++ repeat (TWorker 1) 8
  ++ repeat (TWorker 0) 2 ++ repeat (TWorker 1) 2
  ++ repeat (TWorker 0) (12 * n + 2) ++ others_leave c
  ++ [TWaiter; TWaiter] ++ repeat TMain (n + 1).

Definition always_200 (i : nat) : attempt :=
  {| duration := 5 * Millisecond; result := Response 200 |}.

Definition always_timeout (i : nat) : attempt :=
  {| duration := 30 * Second; result := TransportErr |}.

(** Status 200 for indices 0 to 94, then 500. *)
Definition mostly_200 (i : nat) : attempt :=
  {| duration := 5 * Millisecond;
     result := if i <? 95 then Response 200 else Response 500 |}.

(** One request that takes two hours. *)
Definition two_hours (i : nat) : attempt :=
  {| duration := 2 * Hour; result := Response 200 |}.

(** Durations of 10ms, 50ms, 5ms and 100ms. *)
Definition four_durations (i : nat) : attempt :=
  {| duration := nth i [10; 50; 5; 100]%Z 0%Z * Millisecond; result := Response 200 |}.

(** A method check and a URL parser to run the template code with: methods
    are non-empty words of letters, URLs must not contain a space or a
    control character. *)
Definition letters_only (s : string) : bool :=
  negb (String.eqb s EmptyString)
  && forallb (fun a => (65 <=? Ascii.nat_of_ascii a) && (Ascii.nat_of_ascii a <=? 90))
       (String.list_ascii_of_string s).

Definition no_control (s : string) : option string :=
  if forallb (fun a => (33 <=? Ascii.nat_of_ascii a) && (Ascii.nat_of_ascii a <=? 126))
       (String.list_ascii_of_string s)
  then Some s else None.


(** ** Definitions for the further properties *)

(** The numbers the progress loop prints: the first [k] multiples of 100. *)
Definition progress_marks (k : nat) : list nat := (fun i => 100 * i) <$> seq 1 k.

(** [sendRequest], started at program point [p] on statistics [st] and left
    alone by every other goroutine, returns with statistics [st']. *)
Inductive runs_to (a : attempt) : pc -> Stats -> Stats -> Prop :=
| runs_to_return st : runs_to a PSend st st
| runs_to_step p st st' :
    p <> PSend ->
    runs_to a (sendRequest_step a p st).2 (sendRequest_step a p st).1 st' ->
    runs_to a p st st'.

(** What holds of a run with a single worker: the jobs are taken in the
    order of their indices, and the statistics are those of recording the
    finished jobs one after the other, up to the job in hand. *)
Definition alone_inv (cfg : Config) (exec : nat -> attempt) (s : state) : Prop :=
  rev (finished s) ++ past 0 (workers s) ++ jobs s ++ unsent cfg (main_pc s)
    = seq 0 (n_jobs cfg) /\
  match workers s with
  | [WBusy j p] =>
      runs_to (exec j) p (stats s)
        (record (exec j) (record_all (exec <$> rev (finished s)) new_stats))
  | _ => stats s = record_all (exec <$> rev (finished s)) new_stats
  end.

(** ** [printResults]: the status-code lines *)

(** The body of the inner loop of the sort:
    [if statusCodes[i] > statusCodes[j] { swap }].  Both indices are below
    the length wherever the loops use it. *)
Definition swap_if_greater (i j : nat) (a : list Z) : list Z :=
  match a !! i, a !! j with
  | Some x, Some y => if (y <? x)%Z then <[j := x]> (<[i := y]> a) else a
  | _, _ => a
  end.

(** [for j := i + 1; j < len(statusCodes); j++]. *)
Definition sort_inner (i : nat) (a : list Z) : list Z :=
  foldl (fun a j => swap_if_greater i j a) a (seq (S i) (length a - S i)).

(** [for i := 0; i < len(statusCodes); i++]. *)
Definition simple_sort (a : list Z) : list Z :=
  foldl (fun a i => sort_inner i a) a (seq 0 (length a)).

(** The lines of the status-code table, code and count: the keys as
    [StatusCodes.Range] produced them, sorted, each looked up again. *)
Definition status_lines (st : Stats) (ranged : list Z) : list (Z * Z) :=
  omap (fun code => (fun count => (code, count)) <$> StatusCodes st !! code)
    (simple_sort ranged).

(** ** [parseFlags]: the header flag *)

(** [strings.Split(s, sep)] for a one-byte separator. *)
Fixpoint SplitByte (s : string) (sep : Ascii.ascii) : list string :=
  match s with
  | EmptyString => [EmptyString]
  | String a rest =>
      if Ascii.eqb a sep then EmptyString :: SplitByte rest sep
      else match SplitByte rest sep with
           | part :: parts => String a part :: parts
           | [] => [String a EmptyString]
           end
  end.

(** [strings.Join(parts, sep)] for a one-byte separator. *)
Fixpoint JoinByte (parts : list string) (sep : Ascii.ascii) : string :=
  match parts with
  | [] => EmptyString
  | [part] => part
  | part :: rest => String.append part (String sep (JoinByte rest sep))
  end.

(** The values the [flag] package hands back after [flag.Parse()]. *)
Record Flags := {
  flag_u : string;
  flag_n : Z;
  flag_c : Z;
  flag_t : Z;
  flag_m : string;
  flag_d : string;
  flag_k : bool;
  flag_H : string;
  flag_args : list string
}.

Section Flags.

Variable TrimSpace : string -> string.

(** The loop over [strings.Split(headers, ";")]. *)
Definition parse_headers (headers : string) : list string :=
  if decide (headers = EmptyString) then []
  else filter (fun pair => TrimSpace pair <> EmptyString) (SplitByte headers ";").

(** [func parseFlags], from the parsed flag values on. *)
Definition parseFlags (f : Flags) : Config :=
  {| URL :=
       match flag_args f with
       | arg0 :: _ => if decide (flag_u f = EmptyString) then arg0 else flag_u f
       | [] => flag_u f
       end;
     NumRequests := flag_n f; Concurrency := flag_c f; Timeout := flag_t f;
     Method := flag_m f; Body := flag_d f; Headers := parse_headers (flag_H f);
     KeepAlive := flag_k f |}.

End Flags.

Definition set_Headers (v : list string) (c : Config) : Config :=
  {| URL := URL c; NumRequests := NumRequests c; Concurrency := Concurrency c;
     Timeout := Timeout c; Method := Method c; Body := Body c; Headers := v;
     KeepAlive := KeepAlive c |}.

(** Every element at an index below [k] is at most every element after it. *)
Definition prefix_le (k : nat) (a : list Z) : Prop :=
  forall m1 m2 x y, m1 < k -> m1 < m2 -> a !! m1 = Some x -> a !! m2 = Some y -> (x <= y)%Z.

(** A stand-in for [strings.TrimSpace] to run the header code with: it
    strips spaces (only) at both ends. *)
Fixpoint trim_left (s : string) : string :=
  match s with
  | String a rest => if Ascii.eqb a " " then trim_left rest else s
  | EmptyString => EmptyString
  end.

Fixpoint trim_right (s : string) : string :=
  match s with
  | String a rest =>
      match trim_right rest with
      | EmptyString => if Ascii.eqb a " " then EmptyString else String a EmptyString
      | rest' => String a rest'
      end
  | EmptyString => EmptyString
  end.

Definition trim_spaces (s : string) : string := trim_right (trim_left s).

(** A POST of a JSON body with two custom headers, the second of which
    sets the content type. *)
Definition post_with_headers : Config :=
  {| URL := "http://localhost:3000/api/users"; NumRequests := 10; Concurrency := 2;
     Timeout := 30; Method := "POST"; Body := "{}";
     Headers := ["Authorization: Bearer token"; "Content-Type: text/csv"]%string;
     KeepAlive := true |}.

(** A GET with keep-alive switched off ([-k=false]) and no custom header. *)
Definition without_keepalive : Config :=
  {| URL := "http://localhost:3000/api/users"; NumRequests := 10; Concurrency := 2;
     Timeout := 30; Method := "GET"; Body := ""; Headers := []; KeepAlive := false |}.


(** Two POSTs of a form body by one worker with keep-alive switched off:
    [-n 2 -c 1 -k=false -m POST -d 'name=test&id=1']. *)
Definition post_twice : Config :=
  {| URL := "http://localhost:3000/api/users"; NumRequests := 2; Concurrency := 1;
     Timeout := 30; Method := "POST"; Body := "name=test&id=1"; Headers := [];
     KeepAlive := false |}.

(** ** Arithmetic and list facts *)

Lemma wrap64_id z : int64_range z -> wrap64 z = z.
Proof.
  unfold int64_range, min_int64, max_int64, wrap64. intros Hz.
  rewrite Z.mod_small; lia.
Qed.

Lemma wrap64_add_l x y : wrap64 (wrap64 x + y) = wrap64 (x + y).
Proof.
  unfold wrap64.
  replace (((x + 2 ^ 63) mod 2 ^ 64 - 2 ^ 63 + y + 2 ^ 63))%Z
    with (((x + 2 ^ 63) mod 2 ^ 64 + y))%Z by lia.
  rewrite Zplus_mod_idemp_l. do 2 f_equal. lia.
Qed.

Lemma wrap64_range z : int64_range (wrap64 z).
Proof.
  unfold int64_range, min_int64, max_int64, wrap64.
  pose proof (Z.mod_pos_bound (z + 2 ^ 63) (2 ^ 64)). lia.
Qed.

Lemma tally_app f l1 l2 : tally f (l1 ++ l2) = (tally f l1 + tally f l2)%Z.
Proof. induction l1 as [|x l1 IH]; simpl; [done | rewrite IH; lia]. Qed.

#[global] Instance tally_Permutation f : Proper ((≡ₚ) ==> (=)) (tally f).
Proof.
  intros l1 l2 H. induction H; simpl; lia.
Qed.

Lemma tally_ext f g l : (forall j, j ∈ l -> f j = g j) -> tally f l = tally g l.
Proof.
  induction l as [|x l IH]; simpl; intros H; [done |].
  rewrite H, IH; [done | | left]. intros j Hj. apply H. by right.
Qed.

Lemma tally_const_length l : tally (fun _ => 1%Z) l = Z.of_nat (length l).
Proof. induction l as [|x l IH]; simpl length; simpl tally; lia. Qed.

Lemma past_insert k ws i w w' :
  ws !! i = Some w ->
  past k (<[i := w']> ws) ++ wpast k w ≡ₚ past k ws ++ wpast k w'.
Proof.
  unfold past. revert i. induction ws as [|a ws IH]; intros [|i] Hi; simplify_eq/=.
  - solve_Permutation.
  - rewrite <- !(assoc_L (++)). by rewrite (IH _ Hi).
Qed.

Lemma past_insert_tally f k ws i w w' :
  ws !! i = Some w ->
  tally f (past k (<[i := w']> ws)) =
  (tally f (past k ws) - tally f (wpast k w) + tally f (wpast k w'))%Z.
Proof.
  intros Hi. pose proof (past_insert k ws i w w' Hi) as HP.
  apply (tally_Permutation f) in HP. rewrite !tally_app in HP. lia.
Qed.

Lemma past_snoc_idle k ws : past k (ws ++ [WIdle]) = past k ws.
Proof. unfold past. rewrite bind_app. simpl. by rewrite !app_nil_r. Qed.

Lemma past_nil_exited k ws : Forall exited ws -> past k ws = [].
Proof.
  unfold past, exited. induction 1 as [|w ws Hw _ IH]; [done |].
  subst w. simpl. exact IH.
Qed.

Lemma sum_list_with_insert {A} (f : A -> nat) (l : list A) i x y :
  l !! i = Some x ->
  sum_list_with f (<[i := y]> l) + f x = sum_list_with f l + f y.
Proof.
  revert i. induction l as [|a l IH]; intros [|i] Hi; simplify_eq/=; [lia |].
  specialize (IH _ Hi). lia.
Qed.

Lemma sum_list_with_zero {A} (f : A -> nat) (l : list A) :
  sum_list_with f l = 0 <-> Forall (fun x => f x = 0) l.
Proof.
  induction l as [|a l IH]; simpl.
  - split; [constructor | done].
  - rewrite Forall_cons. split.
    + intros H. split; [lia | apply IH; lia].
    + intros [H1 H2]. apply IH in H2. lia.
Qed.

(** ** The engine: invariants, termination, final statistics *)

Arguments wrap64 : simpl never.
Arguments Hour : simpl never.

Section Facts.
Context (cfg : Config) (exec : nat -> attempt).

Lemma set_calls_same l s : l = calls s -> set_calls (l ++ []) s = s.
Proof. intros ->. destruct s as [mpc wpc ws g qs qc rs rc sts cp pg cl fin]; unfold set_calls; simpl. by rewrite app_nil_r. Qed.

Lemma worker_step_move w s s' :
  worker_step cfg exec w s = Some s' -> worker_move cfg exec w s s'.
Proof.
  unfold worker_step. intros H.
  destruct (workers s !! w) as [[| j p | |]|] eqn:Hw; try discriminate.
  - destruct (jobs s) as [|j rest] eqn:Hj.
    + destruct (jobs_closed s) eqn:Hc; simplify_eq. by constructor.
    + simplify_eq. by econstructor.
  - destruct (sendRequest_step (exec j) p (stats s)) as [st' p'] eqn:Hs.
    assert (p <> PSend -> worker_move cfg exec w s
      (set_calls (calls s ++ match p with PDo => [(w, j)] | _ => [] end)
         (set_worker w (WBusy j p') (set_stats st' s)))) as HM.
    { intros Hp. by apply move_request. }
    destruct p; simplify_eq;
      try (rewrite set_calls_same in HM by done); try (by apply HM).
    case_match; simplify_eq. constructor; [done | lia].
  - simplify_eq. by constructor.
Qed.

Ltac step_cases H :=
  match type of H with
  | step _ _ ?t ?s = Some ?s' =>
    destruct t as [| | ?w]; simpl in H;
    [ unfold main_step in H; repeat case_match; simplify_eq
    | unfold waiter_step in H; repeat case_match; simplify_eq
    | apply worker_step_move in H; destruct H ]
  end.

Lemma alive_zero_exited ws w x :
  sum_list_with alive ws = 0 -> ws !! w = Some x -> x = WExited.
Proof.
  intros H Hw. apply sum_list_with_zero in H.
  rewrite Forall_lookup in H. specialize (H _ _ Hw). by destruct x.
Qed.

Lemma inv_step_len t s s' :
  inv cfg exec s -> step cfg exec t s = Some s' ->
  match main_pc s' with
  | MSpawn w => length (workers s') = w /\ w <= n_workers cfg
  | _ => length (workers s') = n_workers cfg
  end.
Proof.
  intros Hinv H. pose proof (inv_len _ _ _ Hinv) as Hlen. clear Hinv.
  step_cases H; destruct s as [mpc wpc ws g qs qc rs rc sts cp pg cl fin]; simpl in *; simplify_eq/=;
    rewrite ?length_insert, ?length_app; simpl; try done.
  all: unfold n_workers in *; try lia.
  all: repeat case_match; simplify_eq/=; try lia.
Qed.

Lemma inv_step_phase t s s' :
  inv cfg exec s -> step cfg exec t s = Some s' ->
  match main_pc s' with
  | MSpawn _ | MSend _ | MClose => jobs_closed s' = false /\ waiter_pc s' = WtNone
  | MGo => jobs_closed s' = true /\ waiter_pc s' = WtNone
  | MRange | MDone => jobs_closed s' = true /\ waiter_pc s' <> WtNone
  end.
Proof.
  intros Hinv H. pose proof (inv_phase _ _ _ Hinv) as Hph. clear Hinv.
  step_cases H; destruct s as [mpc wpc ws g qs qc rs rc sts cp pg cl fin]; simpl in *; simplify_eq/=; try done.
  all: repeat case_match; simplify_eq/=; try (intuition congruence).
Qed.

Lemma inv_step_ctrl t s s' :
  inv cfg exec s -> step cfg exec t s = Some s' ->
  (results_closed s' = true <-> waiter_pc s' = WtDone) /\
  (waiter_pc s' = WtClose \/ waiter_pc s' = WtDone -> wg s' = 0) /\
  (main_pc s' = MDone -> results_closed s' = true /\ results s' = 0) /\
  length (finished s') = results s' + completed s'.
Proof.
  intros Hinv H.
  pose proof (inv_phase _ _ _ Hinv) as Hph.
  pose proof (inv_rclosed _ _ _ Hinv) as Hrc.
  pose proof (inv_wg0 _ _ _ Hinv) as Hw0.
  pose proof (inv_wg _ _ _ Hinv) as Hwg.
  pose proof (inv_done _ _ _ Hinv) as Hd.
  pose proof (inv_fin _ _ _ Hinv) as Hf. clear Hinv.
  step_cases H; destruct s as [mpc wpc ws g qs qc rs rc sts cp pg cl fin]; simpl in *; simplify_eq/=; try done.
  all: repeat case_match; simplify_eq/=.
  all: split_and!; try (intuition (congruence || lia)).
  - intros _. by apply Nat.eqb_eq.
  - intros _. exfalso.
    assert (sum_list_with alive ws = 0) as Hz by (intuition congruence).
    by pose proof (alive_zero_exited _ _ _ Hz H).
Qed.

Lemma inv_step_wg t s s' :
  inv cfg exec s -> step cfg exec t s = Some s' ->
  wg s' = sum_list_with alive (workers s').
Proof.
  intros Hinv H. pose proof (inv_wg _ _ _ Hinv) as Hwg. clear Hinv.
  step_cases H; destruct s as [mpc wpc ws g qs qc rs rc sts cp pg cl fin]; simpl in *; simplify_eq/=; try done.
  all: repeat case_match; simplify_eq/=; try done.
  all: rewrite ?sum_list_with_app; simpl; try lia.
  all: match goal with
       | Hw : ?ws !! ?w = Some ?x |- context [<[?w := ?y]> ?ws] =>
           pose proof (sum_list_with_insert alive ws w x y Hw) as HS; simpl in HS; lia
       end.
Qed.

Lemma inv_step_running t s s' :
  inv cfg exec s -> step cfg exec t s = Some s' ->
  (jobs_closed s' = false -> Forall running (workers s')) /\
  (jobs s' <> [] -> Forall running (workers s')).
Proof.
  intros Hinv H.
  pose proof (inv_phase _ _ _ Hinv) as Hph.
  pose proof (inv_open _ _ _ Hinv) as Ho.
  pose proof (inv_queue _ _ _ Hinv) as Hq. clear Hinv.
  step_cases H; destruct s as [mpc wpc ws g qs qc rs rc sts cp pg cl fin]; simpl in *; simplify_eq/=; try done.
  all: repeat case_match; simplify_eq/=; try done.
  all: split; intros HH;
    try (apply Forall_app; split; [| by repeat constructor]);
    try (apply Forall_insert; [| done]);
    try (by (apply Ho; intuition congruence));
    try (by (apply Hq; intuition congruence)).
  all: exfalso;
    first [ assert (Forall running ws) as HF by (by apply Ho)
          | assert (Forall running ws) as HF by (by apply Hq) ];
    rewrite Forall_lookup in HF; by apply (HF _ _ H).
Qed.

Lemma unsent_send i :
  (Z.of_nat i <? NumRequests cfg)%Z = true ->
  seq i (n_jobs cfg - i) = i :: seq (S i) (n_jobs cfg - S i).
Proof.
  intros Hi. unfold n_jobs.
  replace (Z.to_nat (NumRequests cfg) - i) with (S (Z.to_nat (NumRequests cfg) - S i)) by lia.
  done.
Qed.

Lemma unsent_end i :
  (Z.of_nat i <? NumRequests cfg)%Z = false -> seq i (n_jobs cfg - i) = [].
Proof.
  intros Hi. unfold n_jobs.
  replace (Z.to_nat (NumRequests cfg) - i) with 0 by lia. done.
Qed.

Lemma inv_step_jobs t s s' :
  inv cfg exec s -> step cfg exec t s = Some s' ->
  unsent cfg (main_pc s') ++ jobs s' ++ past 0 (workers s') ++ finished s'
    ≡ₚ seq 0 (n_jobs cfg).
Proof.
  intros Hinv H. pose proof (inv_jobs _ _ _ Hinv) as HJ. clear Hinv.
  step_cases H; destruct s as [mpc wpc ws g qs qc rs rc sts cp pg cl fin]; simpl in *; simplify_eq/=; try done.
  - by rewrite past_snoc_idle.
  - by rewrite Nat.sub_0_r.
  - rewrite unsent_send in HJ by done. rewrite <- HJ. solve_Permutation.
  - rewrite unsent_end in HJ by done. done.
  - pose proof (past_insert 0 _ _ _ (WBusy j PDo) H) as HP. simpl in HP.
    rewrite app_nil_r in HP. rewrite <- HJ, HP. solve_Permutation.
  - pose proof (past_insert 0 _ _ _ WReturning H) as HP. simpl in HP.
    rewrite !app_nil_r in HP. by rewrite HP.
  - pose proof (past_insert 0 _ _ _ WExited H) as HP. simpl in HP.
    rewrite !app_nil_r in HP. by rewrite HP.
  - pose proof (past_insert 0 _ _ _ WIdle H) as HP. simpl in HP.
    rewrite !app_nil_r in HP. rewrite <- HJ, <- HP. solve_Permutation.
  - pose proof (past_insert 0 _ _ _ (WBusy j p') H) as HP. simpl in HP.
    rewrite <- HJ. apply Permutation_app_inv_r in HP. by rewrite HP.
Qed.

Ltac request_cases p Hs :=
  destruct p; simpl in Hs; repeat case_match; simplify_eq/=.

Lemma inv_step_calls t s s' :
  inv cfg exec s -> step cfg exec t s = Some s' ->
  (calls s').*2 ≡ₚ past 1 (workers s') ++ finished s' /\
  Forall (fun c => c.1 < length (workers s')) (calls s').
Proof.
  intros Hinv H. pose proof (inv_calls _ _ _ Hinv) as HC.
  pose proof (inv_callers _ _ _ Hinv) as HL. clear Hinv.
  step_cases H; destruct s as [mpc wpc ws g qs qc rs rc sts cp pg cl fin]; simpl in *; simplify_eq/=; try done.
  - rewrite past_snoc_idle, length_app. split; [done |].
    eapply Forall_impl; [exact HL |]. simpl. intros; lia.
  - pose proof (past_insert 1 _ _ _ (WBusy j PDo) H) as HP. simpl in HP.
    rewrite !app_nil_r in HP. by rewrite HP, length_insert.
  - pose proof (past_insert 1 _ _ _ WReturning H) as HP. simpl in HP.
    rewrite !app_nil_r in HP. by rewrite HP, length_insert.
  - pose proof (past_insert 1 _ _ _ WExited H) as HP. simpl in HP.
    rewrite !app_nil_r in HP. by rewrite HP, length_insert.
  - pose proof (past_insert 1 _ _ _ WIdle H) as HP. simpl in HP.
    rewrite !app_nil_r in HP. rewrite length_insert. split; [| done].
    rewrite HC, <- HP. solve_Permutation.
  - rewrite length_insert.
    pose proof (past_insert 1 _ _ _ (WBusy j p') H) as HP.
    pose proof (lookup_lt_Some _ _ _ H) as Hlt.
    request_cases p H1; simpl in HP; rewrite ?app_nil_r in *;
      try (apply Permutation_app_inv_r in HP; by rewrite HP).
    rewrite fmap_app, Forall_app, Forall_singleton. simpl.
    split; [| done]. rewrite HC, HP. solve_Permutation.
Qed.

Ltac tally_facts Hw :=
  match type of Hw with
  | ?ws !! ?w = Some ?x =>
      match goal with
      | |- context [<[w := ?y]> ws] =>
          pose proof (past_insert_tally (fun _ => 1%Z) 2 ws w x y Hw) as HT1;
          pose proof (past_insert_tally (dur exec) 3 ws w x y Hw) as HT2;
          pose proof (past_insert_tally (ok exec) 6 ws w x y Hw) as HT3;
          pose proof (past_insert_tally (err exec) 6 ws w x y Hw) as HT4;
          simpl in HT1, HT2, HT3, HT4
      end
  end.

Lemma inv_step_counters t s s' :
  inv cfg exec s -> step cfg exec t s = Some s' ->
  TotalRequests (stats s') =
    wrap64 (tally (fun _ => 1%Z) (past 2 (workers s')) + tally (fun _ => 1%Z) (finished s')) /\
  TotalDuration (stats s') =
    wrap64 (tally (dur exec) (past 3 (workers s')) + tally (dur exec) (finished s')) /\
  SuccessfulRequests (stats s') =
    wrap64 (tally (ok exec) (past 6 (workers s')) + tally (ok exec) (finished s')) /\
  FailedRequests (stats s') =
    wrap64 (tally (err exec) (past 6 (workers s')) + tally (err exec) (finished s')).
Proof.
  intros Hinv H.
  pose proof (inv_total _ _ _ Hinv) as H1.
  pose proof (inv_duration _ _ _ Hinv) as H2.
  pose proof (inv_succ _ _ _ Hinv) as H3.
  pose proof (inv_fail _ _ _ Hinv) as H4. clear Hinv.
  step_cases H; destruct s as [mpc wpc ws g qs qc rs rc sts cp pg cl fin]; simpl in *; simplify_eq/=; try done.
  - by rewrite !past_snoc_idle.
  - tally_facts H. rewrite HT1, HT2, HT3, HT4, H1, H2, H3, H4.
    split_and!; f_equal; lia.
  - tally_facts H. rewrite HT1, HT2, HT3, HT4, H1, H2, H3, H4.
    split_and!; f_equal; lia.
  - tally_facts H. rewrite HT1, HT2, HT3, HT4, H1, H2, H3, H4.
    split_and!; f_equal; lia.
  - tally_facts H. rewrite HT1, HT2, HT3, HT4, H1, H2, H3, H4.
    split_and!; f_equal; lia.
  - request_cases p H5; tally_facts H;
      rewrite HT1, HT2, HT3, HT4, ?H1, ?H2, ?H3, ?H4, ?wrap64_add_l;
      unfold ok, err, dur in *;
      repeat match goal with Hr : result _ = _ |- _ => rewrite Hr in *; clear Hr end;
      split_and!; f_equal; lia.
Qed.

Lemma past_elem_lookup k (ws : list wstate) i w j :
  ws !! i = Some w -> j ∈ wpast k w -> j ∈ past k ws.
Proof.
  intros Hi Hj. unfold past. apply list_elem_of_bind. exists w. split; [done |].
  by eapply list_elem_of_lookup_2.
Qed.

Lemma past_elem_insert_new k (ws : list wstate) i w' j :
  i < length ws -> j ∈ wpast k w' -> j ∈ past k (<[i := w']> ws).
Proof.
  intros Hi Hj. apply (past_elem_lookup k _ i w'); [| done].
  by apply list_lookup_insert_eq.
Qed.

Lemma past_elem_insert_old k (ws : list wstate) i w w' j :
  ws !! i = Some w -> j ∈ past k ws -> j ∈ past k (<[i := w']> ws) \/ j ∈ wpast k w.
Proof.
  intros Hi Hj. pose proof (past_insert k ws i w w' Hi) as HP.
  assert (j ∈ past k ws ++ wpast k w') as Hin by (apply elem_of_app; by left).
  rewrite <- HP in Hin. by apply elem_of_app in Hin.
Qed.

Lemma past_elem_insert_inv k (ws : list wstate) i w w' j :
  ws !! i = Some w -> j ∈ past k (<[i := w']> ws) -> j ∈ past k ws \/ j ∈ wpast k w'.
Proof.
  intros Hi Hj. pose proof (past_insert k ws i w w' Hi) as HP.
  assert (j ∈ past k (<[i := w']> ws) ++ wpast k w) as Hin by (apply elem_of_app; by left).
  rewrite HP in Hin. by apply elem_of_app in Hin.
Qed.

(** A property of every job past stage [k] survives a worker's move. *)
Lemma forall_update (P P' : nat -> Prop) k (ws : list wstate) i x y (fin fin' : list nat) :
  ws !! i = Some x ->
  Forall P (past k ws ++ fin) ->
  (forall j, P j -> P' j) ->
  (forall j, j ∈ wpast k y -> j ∈ wpast k x \/ P' j) ->
  (forall j, j ∈ fin' -> j ∈ fin \/ j ∈ wpast k x) ->
  Forall P' (past k (<[i := y]> ws) ++ fin').
Proof.
  intros Hi HF HP Hy Hfin. rewrite Forall_forall in HF. apply Forall_forall.
  intros j Hj. apply elem_of_app in Hj as [Hj | Hj].
  - apply (past_elem_insert_inv _ _ _ _ _ _ Hi) in Hj as [Hj | Hj].
    + apply HP, HF, elem_of_app. by left.
    + apply Hy in Hj as [Hj | Hj]; [| done].
      apply HP, HF, elem_of_app. left. by eapply past_elem_lookup.
  - apply Hfin in Hj as [Hj | Hj]; apply HP, HF, elem_of_app; [by right |].
    left. by eapply past_elem_lookup.
Qed.

(** The jobs past stage [k] or finished only grow along a worker's move. *)
Lemma subset_update k (ws : list wstate) i x y (fin fin' : list nat) :
  ws !! i = Some x ->
  (forall j, j ∈ wpast k x -> j ∈ wpast k y \/ j ∈ fin') ->
  (forall j, j ∈ fin -> j ∈ fin') ->
  forall j, j ∈ past k ws ++ fin -> j ∈ past k (<[i := y]> ws) ++ fin'.
Proof.
  intros Hi Hx Hfin j Hj. apply elem_of_app. apply elem_of_app in Hj as [Hj | Hj].
  - apply (past_elem_insert_old _ _ _ _ y _ Hi) in Hj as [Hj | Hj]; [by left |].
    apply Hx in Hj as [Hj | Hj]; [| by right].
    left. apply past_elem_insert_new; [| done]. by eapply lookup_lt_Some.
  - right. by apply Hfin.
Qed.

Lemma witness_update (v v0 : Z) k (ws : list wstate) i x y (fin fin' : list nat) :
  ws !! i = Some x ->
  (v = v0 \/ exists j, j ∈ past k ws ++ fin /\ v = dur exec j) ->
  (forall j, j ∈ wpast k x -> j ∈ wpast k y \/ j ∈ fin') ->
  (forall j, j ∈ fin -> j ∈ fin') ->
  v = v0 \/ exists j, j ∈ past k (<[i := y]> ws) ++ fin' /\ v = dur exec j.
Proof.
  intros Hi [-> | (j & Hj & ->)] Hx Hfin; [by left |].
  right. exists j. split; [| done]. by eapply subset_update.
Qed.

Lemma witness_new (v v0 : Z) k (ws : list wstate) i j p (fin : list nat) :
  i < length ws -> k <= stage p -> v = dur exec j ->
  v = v0 \/ exists j0, j0 ∈ past k (<[i := WBusy j p]> ws) ++ fin /\ v = dur exec j0.
Proof.
  intros Hi Hk ->. right. exists j. split; [| done].
  apply elem_of_app. left. apply past_elem_insert_new; [done |].
  simpl. apply Nat.leb_le in Hk. rewrite Hk. by left.
Qed.

Lemma inv_step_cas t s s' :
  inv cfg exec s -> step cfg exec t s = Some s' -> Forall (cas_sound exec) (workers s').
Proof.
  intros Hinv H. pose proof (inv_cas _ _ _ Hinv) as HC. clear Hinv.
  step_cases H; destruct s as [mpc wpc ws g qs qc rs rc sts cp pg cl fin]; simpl in *; simplify_eq/=; try done.
  - apply Forall_app. split; [done | by repeat constructor].
  - by apply Forall_insert.
  - by apply Forall_insert.
  - by apply Forall_insert.
  - by apply Forall_insert.
  - apply Forall_insert; [done |].
    request_cases p H1; simpl; unfold dur; try done; lia.
Qed.

Ltac elem_solver :=
  simpl; intros;
  repeat match goal with
         | H : _ ∈ [] |- _ => by apply elem_of_nil in H
         | H : _ ∈ [_] |- _ => apply list_elem_of_singleton in H; subst
         | H : _ ∈ _ :: _ |- _ => apply elem_of_cons in H as [-> | H]
         end;
  try done; try (by left); try (by right);
  try (left; by apply list_elem_of_singleton);
  try (right; by apply list_elem_of_singleton);
  try (by apply elem_of_cons; left);
  try (by apply elem_of_cons; right);
  try (right; by apply elem_of_cons; left);
  try (right; unfold dur in *; lia).

Lemma inv_step_min t s s' :
  inv cfg exec s -> step cfg exec t s = Some s' ->
  Forall (fun j => (MinDuration (stats s') <= dur exec j)%Z)
    (past 4 (workers s') ++ finished s') /\
  (MinDuration (stats s') = Hour \/
   exists j, j ∈ past 1 (workers s') ++ finished s' /\ MinDuration (stats s') = dur exec j) /\
  (MinDuration (stats s') <= Hour)%Z.
Proof.
  intros Hinv H.
  pose proof (inv_cas _ _ _ Hinv) as HC.
  pose proof (inv_min_le _ _ _ Hinv) as H1.
  pose proof (inv_min_in _ _ _ Hinv) as H2.
  pose proof (inv_min_hour _ _ _ Hinv) as H3. clear Hinv.
  step_cases H; destruct s as [mpc wpc ws g qs qc rs rc sts cp pg cl fin]; simpl in *; simplify_eq/=; try done.
  - by rewrite !past_snoc_idle.
  - split_and!; [| | done].
    + eapply forall_update; [done | exact H1 | done | |]; elem_solver.
    + eapply witness_update; [done | exact H2 | |]; elem_solver.
  - split_and!; [| | done].
    + eapply forall_update; [done | exact H1 | done | |]; elem_solver.
    + eapply witness_update; [done | exact H2 | |]; elem_solver.
  - split_and!; [| | done].
    + eapply forall_update; [done | exact H1 | done | |]; elem_solver.
    + eapply witness_update; [done | exact H2 | |]; elem_solver.
  - split_and!; [| | done].
    + eapply forall_update; [done | exact H1 | done | |]; elem_solver.
    + eapply witness_update; [done | exact H2 | |]; elem_solver.
  - rewrite Forall_lookup in HC. specialize (HC _ _ H). simpl in HC.
    pose proof (lookup_lt_Some _ _ _ H) as Hlt.
    request_cases p H4.
    all: try (split_and!; [| | done];
              [ eapply forall_update; [done | exact H1 | done | |]; elem_solver
              | eapply witness_update; [done | exact H2 | |]; elem_solver ]).
    apply Z.eqb_eq in H5. split_and!; [| | unfold dur in *; lia].
    + eapply forall_update;
        [done | exact H1 | unfold dur in *; simpl; intros; lia | |]; elem_solver.
    + eapply witness_new; [done | simpl; lia | done].
Qed.

Lemma inv_step_max t s s' :
  inv cfg exec s -> step cfg exec t s = Some s' ->
  Forall (fun j => (dur exec j <= MaxDuration (stats s'))%Z)
    (past 5 (workers s') ++ finished s') /\
  (MaxDuration (stats s') = 0%Z \/
   exists j, j ∈ past 1 (workers s') ++ finished s' /\ MaxDuration (stats s') = dur exec j) /\
  (0 <= MaxDuration (stats s'))%Z.
Proof.
  intros Hinv H.
  pose proof (inv_cas _ _ _ Hinv) as HC.
  pose proof (inv_max_le _ _ _ Hinv) as H1.
  pose proof (inv_max_in _ _ _ Hinv) as H2.
  pose proof (inv_max_zero _ _ _ Hinv) as H3. clear Hinv.
  step_cases H; destruct s as [mpc wpc ws g qs qc rs rc sts cp pg cl fin]; simpl in *; simplify_eq/=; try done.
  - by rewrite !past_snoc_idle.
  - split_and!; [| | done].
    + eapply forall_update; [done | exact H1 | done | |]; elem_solver.
    + eapply witness_update; [done | exact H2 | |]; elem_solver.
  - split_and!; [| | done].
    + eapply forall_update; [done | exact H1 | done | |]; elem_solver.
    + eapply witness_update; [done | exact H2 | |]; elem_solver.
  - split_and!; [| | done].
    + eapply forall_update; [done | exact H1 | done | |]; elem_solver.
    + eapply witness_update; [done | exact H2 | |]; elem_solver.
  - split_and!; [| | done].
    + eapply forall_update; [done | exact H1 | done | |]; elem_solver.
    + eapply witness_update; [done | exact H2 | |]; elem_solver.
  - rewrite Forall_lookup in HC. specialize (HC _ _ H). simpl in HC.
    pose proof (lookup_lt_Some _ _ _ H) as Hlt.
    request_cases p H4.
    all: try (split_and!; [| | done];
              [ eapply forall_update; [done | exact H1 | done | |]; elem_solver
              | eapply witness_update; [done | exact H2 | |]; elem_solver ]).
    apply Z.eqb_eq in H5. split_and!; [| | unfold dur in *; lia].
    + eapply forall_update;
        [done | exact H1 | unfold dur in *; simpl; intros; lia | |]; elem_solver.
    + eapply witness_new; [done | simpl; lia | done].
Qed.

Lemma inv_step t s s' : inv cfg exec s -> step cfg exec t s = Some s' -> inv cfg exec s'.
Proof.
  intros Hinv H.
  pose proof (inv_step_len _ _ _ Hinv H).
  pose proof (inv_step_phase _ _ _ Hinv H).
  pose proof (inv_step_ctrl _ _ _ Hinv H) as (? & ? & ? & ?).
  pose proof (inv_step_wg _ _ _ Hinv H).
  pose proof (inv_step_running _ _ _ Hinv H) as [? ?].
  pose proof (inv_step_jobs _ _ _ Hinv H).
  pose proof (inv_step_calls _ _ _ Hinv H) as [? ?].
  pose proof (inv_step_counters _ _ _ Hinv H) as (? & ? & ? & ?).
  pose proof (inv_step_cas _ _ _ Hinv H).
  pose proof (inv_step_min _ _ _ Hinv H) as (? & ? & ?).
  pose proof (inv_step_max _ _ _ Hinv H) as (? & ? & ?).
  by constructor.
Qed.

Lemma inv_init : inv cfg exec init.
Proof.
  constructor; simpl; try done.
  all: try lia.
  by rewrite app_nil_r.
Qed.

Lemma inv_run sched s : inv cfg exec s -> inv cfg exec (run cfg exec sched s).
Proof.
  revert s. induction sched as [|t sched IH]; intros s Hs; simpl; [done |].
  apply IH. destruct (step cfg exec t s) as [s'|] eqn:Ht; simpl; [| done].
  by eapply inv_step.
Qed.

Lemma inv_reachable s : reachable cfg exec s -> inv cfg exec s.
Proof. intros [sched ->]. apply inv_run, inv_init. Qed.

Lemma inv_steps s sched s' : inv cfg exec s -> steps cfg exec s sched s' -> inv cfg exec s'.
Proof. intros Hs H. induction H; [done |]. apply IHsteps. by eapply inv_step. Qed.

(** *** What holds once [runLoadTest] has returned *)

Lemma alive_exited ws : sum_list_with alive ws = 0 -> Forall exited ws.
Proof.
  intros H. apply sum_list_with_zero in H. eapply Forall_impl; [exact H |].
  intros [] ?; done.
Qed.

Lemma returned_exited s : inv cfg exec s -> returned s -> Forall exited (workers s).
Proof.
  intros Hinv Hret. apply alive_exited. rewrite <- (inv_wg _ _ _ Hinv).
  apply (inv_wg0 _ _ _ Hinv). right. apply (inv_rclosed _ _ _ Hinv).
  by apply (inv_done _ _ _ Hinv).
Qed.

Lemma returned_drained s :
  inv cfg exec s -> returned s -> (1 <= Concurrency cfg)%Z -> jobs s = [].
Proof.
  intros Hinv Hret HC. pose proof (returned_exited s Hinv Hret) as HE.
  pose proof (inv_len _ _ _ Hinv) as HL. rewrite Hret in HL.
  destruct (jobs s) as [|j rest] eqn:Hj; [done |]. exfalso.
  assert (Forall running (workers s)) as HR by (apply (inv_queue _ _ _ Hinv); by rewrite Hj).
  destruct (workers s) as [|w ws]; [simpl in HL; unfold n_workers in HL; lia |].
  apply Forall_cons in HE as [-> _]. by apply Forall_cons in HR as [HR _].
Qed.

Lemma returned_finished s :
  inv cfg exec s -> returned s -> (1 <= Concurrency cfg)%Z ->
  finished s ≡ₚ seq 0 (n_jobs cfg).
Proof.
  intros Hinv Hret HC. pose proof (inv_jobs _ _ _ Hinv) as HJ.
  rewrite (returned_drained s Hinv Hret HC) in HJ.
  rewrite (past_nil_exited 0 _ (returned_exited s Hinv Hret)) in HJ.
  by rewrite Hret in HJ.
Qed.

(** *** Every step uses up part of the bound *)

Lemma worker_weight_shift mn mx mn' mx' w :
  worker_weight cfg mn' mx' w <= worker_weight cfg mn mx w + 2.
Proof.
  destruct w as [|j p| |]; simpl; try lia.
  destruct p; simpl; repeat case_match; lia.
Qed.

Lemma sum_weight_shift mn mx mn' mx' ws :
  sum_list_with (worker_weight cfg mn' mx') ws
  <= sum_list_with (worker_weight cfg mn mx) ws + 2 * length ws.
Proof.
  induction ws as [|w ws IH]; simpl; [lia |].
  pose proof (worker_weight_shift mn mx mn' mx' w). lia.
Qed.

Lemma inv_workers_bound s : inv cfg exec s -> length (workers s) <= n_workers cfg.
Proof.
  intros Hinv. pose proof (inv_len _ _ _ Hinv) as HL.
  destruct (main_pc s); lia.
Qed.

Lemma step_measure t s s' :
  inv cfg exec s -> step cfg exec t s = Some s' -> measure cfg s' < measure cfg s.
Proof.
  intros Hinv H. pose proof (inv_workers_bound s Hinv) as HB. clear Hinv.
  unfold measure.
  step_cases H; destruct s as [mpc wpc ws g qs qc rs rc sts cp pg cl fin]; simpl in *; simplify_eq/=;
    rewrite ?sum_list_with_app, ?length_app; simpl.
  all: try (generalize (job_weight cfg); intros; nia).
  - replace (n_workers cfg - w) with (S (n_workers cfg - S w)) by (unfold n_workers; lia).
    lia.
  - replace (n_jobs cfg - i) with (S (n_jobs cfg - S i)) by (unfold n_jobs; lia).
    rewrite Nat.mul_succ_l. lia.
  - pose proof (sum_list_with_insert
      (worker_weight cfg (MinDuration sts) (MaxDuration sts)) _ _ _ (WBusy j PDo) H).
    simpl in *. unfold job_weight in *. lia.
  - pose proof (sum_list_with_insert
      (worker_weight cfg (MinDuration sts) (MaxDuration sts)) _ _ _ WReturning H).
    simpl in *. unfold job_weight in *. lia.
  - pose proof (sum_list_with_insert
      (worker_weight cfg (MinDuration sts) (MaxDuration sts)) _ _ _ WExited H).
    simpl in *. unfold job_weight in *. lia.
  - pose proof (sum_list_with_insert
      (worker_weight cfg (MinDuration sts) (MaxDuration sts)) _ _ _ WIdle H).
    simpl in *. unfold job_weight in *. lia.
  - pose proof (sum_list_with_insert
      (worker_weight cfg (MinDuration st') (MaxDuration st')) _ _ _ (WBusy j p') H) as HS.
    pose proof (sum_weight_shift (MinDuration sts) (MaxDuration sts)
      (MinDuration st') (MaxDuration st') ws) as HW.
    request_cases p H1; simpl in *; unfold retry_reserve in *;
      repeat case_match; try lia.
Qed.

(** *** No deadlock, and every run ends *)

Lemma alive_lookup ws :
  sum_list_with alive ws <> 0 -> exists w x, ws !! w = Some x /\ x <> WExited.
Proof.
  induction ws as [|a ws IH]; simpl; [done |]. intros H.
  destruct (decide (alive a = 0)) as [Ha | Ha].
  - destruct IH as (w & x & Hw & Hx); [lia |]. by exists (S w), x.
  - exists 0, a. split; [done |]. intros ->. done.
Qed.

Lemma request_step_enabled w s j p :
  workers s !! w = Some (WBusy j p) -> p <> PSend ->
  exists s', worker_step cfg exec w s = Some s'.
Proof.
  intros Hw Hp. unfold worker_step. rewrite Hw.
  destruct (sendRequest_step (exec j) p (stats s)) as [st' p'].
  destruct p; try done; eauto.
Qed.

Lemma progress_step s :
  inv cfg exec s -> ¬ returned s -> exists t s', step cfg exec t s = Some s'.
Proof.
  intros Hinv Hret.
  pose proof (inv_phase _ _ _ Hinv) as Hph.
  pose proof (inv_rclosed _ _ _ Hinv) as Hrc.
  pose proof (inv_wg _ _ _ Hinv) as Hwg.
  pose proof (inv_jobs _ _ _ Hinv) as HJ.
  apply Permutation_length in HJ. rewrite !length_app, length_seq in HJ.
  unfold returned in Hret.
  destruct (main_pc s) eqn:Hm; try done.
  - exists TMain. simpl. unfold main_step. rewrite Hm. case_match; eauto.
  - exists TMain. simpl. unfold main_step. rewrite Hm.
    destruct (Z.of_nat i <? NumRequests cfg)%Z eqn:Hi; [| eauto].
    simpl in HJ. rewrite length_seq in HJ. unfold n_jobs in HJ.
    destruct (Z.of_nat (length (jobs s)) <? NumRequests cfg)%Z eqn:Hl; [eauto |].
    exfalso. apply Z.ltb_lt in Hi. apply Z.ltb_ge in Hl. lia.
  - exists TMain. simpl. unfold main_step. rewrite Hm. eauto.
  - exists TMain. simpl. unfold main_step. rewrite Hm. eauto.
  - destruct (results s) as [|r] eqn:Hr.
    2:{ exists TMain. simpl. unfold main_step. rewrite Hm, Hr. case_match; eauto. }
    destruct (results_closed s) eqn:Hc.
    { exists TMain. simpl. unfold main_step. rewrite Hm, Hr, Hc. eauto. }
    destruct (waiter_pc s) eqn:Hwt.
    + by destruct Hph.
    + destruct (wg s) as [|g] eqn:Hg.
      { exists TWaiter. simpl. unfold waiter_step. rewrite Hwt, Hg. eauto. }
      destruct (alive_lookup (workers s)) as (w & x & Hw & Hx); [lia |].
      exists (TWorker w). simpl.
      destruct x as [|j p| |]; [| | | done].
      * unfold worker_step. rewrite Hw. destruct (jobs s); [| eauto].
        destruct Hph as [-> _]. eauto.
      * destruct (decide (stage p = 7)) as [Hp | Hp].
        -- destruct p; try done. unfold worker_step. rewrite Hw, Hr.
           assert (0 < length (past 0 (workers s))) as Hpos.
           { pose proof (past_elem_lookup 0 _ _ _ j Hw) as Hin. simpl in Hin.
             destruct (past 0 (workers s)); [| simpl; lia].
             exfalso. eapply elem_of_nil, Hin. by left. }
           unfold n_jobs in HJ.
           destruct (Z.of_nat 0 <? NumRequests cfg)%Z eqn:Hn; [eauto |].
           exfalso. apply Z.ltb_ge in Hn. lia.
        -- apply (request_step_enabled w s j p Hw). by intros ->.
      * unfold worker_step. rewrite Hw. eauto.
    + exists TWaiter. simpl. unfold waiter_step. rewrite Hwt. eauto.
    + by pose proof (proj2 Hrc eq_refl).
Qed.

Lemma returned_dec s : returned s \/ ¬ returned s.
Proof. unfold returned. destruct (main_pc s); (by left) || (by right). Qed.

Lemma steps_run s sched s' : steps cfg exec s sched s' -> run cfg exec sched s = s'.
Proof. induction 1 as [|s t s1 sched s2 Ht _ IH]; simpl; [done |]. by rewrite Ht. Qed.

Lemma steps_app s sched1 s1 sched2 s2 :
  steps cfg exec s sched1 s1 -> steps cfg exec s1 sched2 s2 ->
  steps cfg exec s (sched1 ++ sched2) s2.
Proof. induction 1; simpl; [done |]. intros. econstructor; eauto. Qed.

(** No run of effective steps is longer than the bound of its first state. *)
Lemma steps_bounded s sched s' :
  inv cfg exec s -> steps cfg exec s sched s' ->
  length sched + measure cfg s' <= measure cfg s.
Proof.
  intros Hinv H. induction H as [|s t s1 sched s2 Ht _ IH]; simpl; [lia |].
  pose proof (step_measure _ _ _ Hinv Ht). pose proof (inv_step _ _ _ Hinv Ht) as H1.
  specialize (IH H1). lia.
Qed.

(** From every state of a run, the run can be brought to its end. *)
Lemma completes s :
  inv cfg exec s -> exists sched s', steps cfg exec s sched s' /\ returned s'.
Proof.
  remember (measure cfg s) as m eqn:Hm. revert s Hm.
  induction m as [m IH] using lt_wf_ind. intros s -> Hinv.
  destruct (returned_dec s) as [Hd | Hd].
  - exists [], s. split; [constructor | done].
  - destruct (progress_step s Hinv Hd) as (t & s1 & Ht).
    destruct (IH (measure cfg s1) (step_measure _ _ _ Hinv Ht) s1 eq_refl
                (inv_step _ _ _ Hinv Ht)) as (sched & s2 & Hs & Hr).
    exists (t :: sched), s2. split; [by econstructor | done].
Qed.

(** A run that can go no further has returned. *)
Lemma stuck_returned s :
  inv cfg exec s -> (forall t, step cfg exec t s = None) -> returned s.
Proof.
  intros Hinv Hstuck. destruct (returned_dec s) as [Hd | Hd]; [done |].
  destruct (progress_step s Hinv Hd) as (t & s1 & Ht). by rewrite Hstuck in Ht.
Qed.

(** *** Histogram buckets come from responses only *)

Lemma hist_step t s s' :
  hist_inv exec s -> step cfg exec t s = Some s' -> hist_inv exec s'.
Proof.
  intros [HW HK] H.
  step_cases H; destruct s as [mpc wpc ws g qs qc rs rc sts cp pg cl fin]; simpl in *; simplify_eq/=; try (by constructor).
  - constructor; simpl.
    + apply Forall_app. split; [done | by repeat constructor].
    + by rewrite past_snoc_idle.
  - constructor; simpl; [by apply Forall_insert |].
    intros code c Hc. destruct (HK code c Hc) as (j0 & Hj & Hr). exists j0.
    split; [| done]. eapply subset_update; [done | | | exact Hj]; elem_solver.
  - constructor; simpl; [by apply Forall_insert |].
    intros code c Hc. destruct (HK code c Hc) as (j0 & Hj & Hr). exists j0.
    split; [| done]. eapply subset_update; [done | | | exact Hj]; elem_solver.
  - constructor; simpl; [by apply Forall_insert |].
    intros code c Hc. destruct (HK code c Hc) as (j0 & Hj & Hr). exists j0.
    split; [| done]. eapply subset_update; [done | | | exact Hj]; elem_solver.
  - constructor; simpl; [by apply Forall_insert |].
    intros code c Hc. destruct (HK code c Hc) as (j0 & Hj & Hr). exists j0.
    split; [| done]. eapply subset_update; [done | | | exact Hj]; elem_solver.
  - pose proof HW as HW'. rewrite Forall_lookup in HW'. specialize (HW' _ _ H).
    simpl in HW'. pose proof (lookup_lt_Some _ _ _ H) as Hlt.
    request_cases p H1.
    all: constructor; simpl; [by apply Forall_insert |].
    all: intros code' c' Hc.
    all: try (destruct (HK code' c' Hc) as (j0 & Hj & Hr); exists j0;
              split; [| done]; eapply subset_update; [done | | | exact Hj]; elem_solver).
    all: destruct (decide (code = code')) as [<- | Hne];
      [ exists j; split; [| done]; apply elem_of_app; left;
        apply past_elem_insert_new; [done | simpl; by left]
      | rewrite lookup_insert_ne in Hc by done;
        destruct (HK code' c' Hc) as (j0 & Hj & Hr); exists j0;
        split; [| done]; eapply subset_update; [done | | | exact Hj]; elem_solver ].
Qed.

Lemma hist_init : hist_inv exec init.
Proof. constructor; simpl; [constructor |]. intros code c Hc. by rewrite lookup_empty in Hc. Qed.

Lemma hist_run sched s : hist_inv exec s -> hist_inv exec (run cfg exec sched s).
Proof.
  revert s. induction sched as [|t sched IH]; intros s Hs; simpl; [done |].
  apply IH. destruct (step cfg exec t s) as [s'|] eqn:Ht; simpl; [| done].
  by eapply hist_step.
Qed.

(** *** The statistics of a finished run *)

Lemma tally_ok_err l : (tally (ok exec) l + tally (err exec) l)%Z = Z.of_nat (length l).
Proof.
  induction l as [|j l IH]; [done |]. simpl tally. simpl length.
  unfold ok at 1, err at 1. destruct (result (exec j)); lia.
Qed.

Lemma tally_ok_nonneg l : (0 <= tally (ok exec) l)%Z.
Proof. induction l as [|j l IH]; simpl; [lia |]. unfold ok at 1. destruct (result (exec j)); lia. Qed.

Lemma tally_err_nonneg l : (0 <= tally (err exec) l)%Z.
Proof. induction l as [|j l IH]; simpl; [lia |]. unfold err at 1. destruct (result (exec j)); lia. Qed.

Lemma min_over_char (mn : Z) (l : list Z) :
  Forall (fun d => (mn <= d)%Z) l -> (mn <= Hour)%Z -> mn = Hour \/ mn ∈ l ->
  mn = min_over l.
Proof.
  unfold min_over. induction l as [|d l IH]; simpl; intros HF HH Hin.
  - destruct Hin as [-> | Hin]; [done | by apply elem_of_nil in Hin].
  - apply Forall_cons in HF as [Hd HF].
    assert (mn <= foldr Z.min Hour l)%Z as Hle.
    { clear -HF HH. induction HF; simpl; lia. }
    destruct Hin as [-> | Hin].
    + rewrite <- IH; [lia | done | done | by left].
    + apply elem_of_cons in Hin as [-> | Hin]; [lia |].
      rewrite <- IH; [lia | done | done | by right].
Qed.

Lemma max_over_char (mx : Z) (l : list Z) :
  Forall (fun d => (d <= mx)%Z) l -> (0 <= mx)%Z -> mx = 0%Z \/ mx ∈ l ->
  mx = max_over l.
Proof.
  unfold max_over. induction l as [|d l IH]; simpl; intros HF HH Hin.
  - destruct Hin as [-> | Hin]; [done | by apply elem_of_nil in Hin].
  - apply Forall_cons in HF as [Hd HF].
    assert (foldr Z.max 0 l <= mx)%Z as Hle.
    { clear -HF HH. induction HF; simpl; lia. }
    destruct Hin as [-> | Hin].
    + rewrite <- IH; [lia | done | done | by left].
    + apply elem_of_cons in Hin as [-> | Hin]; [lia |].
      rewrite <- IH; [lia | done | done | by right].
Qed.

Lemma min_over_perm l1 l2 : l1 ≡ₚ l2 -> min_over l1 = min_over l2.
Proof. unfold min_over. induction 1; simpl; lia. Qed.

Lemma max_over_perm l1 l2 : l1 ≡ₚ l2 -> max_over l1 = max_over l2.
Proof. unfold max_over. induction 1; simpl; lia. Qed.

(** The six counters once [runLoadTest] has returned, in terms of the jobs
    that were carried out. *)
Lemma returned_stats s :
  inv cfg exec s -> returned s ->
  TotalRequests (stats s) = wrap64 (Z.of_nat (length (finished s))) /\
  SuccessfulRequests (stats s) = wrap64 (tally (ok exec) (finished s)) /\
  FailedRequests (stats s) = wrap64 (tally (err exec) (finished s)) /\
  TotalDuration (stats s) = wrap64 (tally (dur exec) (finished s)) /\
  MinDuration (stats s) = min_over (dur exec <$> finished s) /\
  MaxDuration (stats s) = max_over (dur exec <$> finished s) /\
  Forall (fun j => (MinDuration (stats s) <= dur exec j <= MaxDuration (stats s))%Z)
    (finished s).
Proof.
  intros Hinv Hret. pose proof (returned_exited s Hinv Hret) as HE.
  pose proof (inv_total _ _ _ Hinv) as H1. pose proof (inv_duration _ _ _ Hinv) as H2.
  pose proof (inv_succ _ _ _ Hinv) as H3. pose proof (inv_fail _ _ _ Hinv) as H4.
  pose proof (inv_min_le _ _ _ Hinv) as H5. pose proof (inv_min_in _ _ _ Hinv) as H6.
  pose proof (inv_max_le _ _ _ Hinv) as H7. pose proof (inv_max_in _ _ _ Hinv) as H8.
  rewrite (past_nil_exited 2 _ HE) in H1. rewrite (past_nil_exited 3 _ HE) in H2.
  rewrite (past_nil_exited 6 _ HE) in H3, H4. rewrite (past_nil_exited 4 _ HE) in H5.
  rewrite (past_nil_exited 1 _ HE) in H6, H8. rewrite (past_nil_exited 5 _ HE) in H7.
  simpl in *. rewrite tally_const_length in H1.
  split_and!; try done.
  - apply min_over_char.
    + by apply Forall_fmap.
    + apply (inv_min_hour _ _ _ Hinv).
    + destruct H6 as [? | (j & Hj & ->)]; [by left | right]. by apply list_elem_of_fmap_2.
  - apply max_over_char.
    + by apply Forall_fmap.
    + apply (inv_max_zero _ _ _ Hinv).
    + destruct H8 as [? | (j & Hj & ->)]; [by left | right]. by apply list_elem_of_fmap_2.
  - rewrite Forall_forall in *. intros j Hj. split; [by apply H5 | by apply H7].
Qed.

Lemma n_jobs_range : (0 <= NumRequests cfg)%Z -> Z.of_nat (n_jobs cfg) = NumRequests cfg.
Proof. unfold n_jobs. lia. Qed.

(** With at least one worker, and a request count an [int64] holds, the
    counters are those of all [config.NumRequests] jobs. *)
Lemma returned_totals s :
  inv cfg exec s -> returned s ->
  (0 <= NumRequests cfg <= max_int64)%Z -> (1 <= Concurrency cfg)%Z ->
  TotalRequests (stats s) = NumRequests cfg /\
  SuccessfulRequests (stats s) = tally (ok exec) (seq 0 (n_jobs cfg)) /\
  FailedRequests (stats s) = tally (err exec) (seq 0 (n_jobs cfg)).
Proof.
  intros Hinv Hret HN HC.
  destruct (returned_stats s Hinv Hret) as (H1 & H2 & H3 & _).
  pose proof (returned_finished s Hinv Hret HC) as HP.
  rewrite H1, H2, H3, HP, length_seq.
  pose proof (tally_ok_err (seq 0 (n_jobs cfg))) as HS. rewrite length_seq in HS.
  pose proof (tally_ok_nonneg (seq 0 (n_jobs cfg))).
  pose proof (tally_err_nonneg (seq 0 (n_jobs cfg))).
  pose proof (n_jobs_range (proj1 HN)).
  rewrite !wrap64_id; unfold int64_range, min_int64, max_int64 in *; lia.
Qed.



Lemma sendRequest_from_S fuel a p st :
  p <> PSend ->
  sendRequest_from (S fuel) a p st =
  sendRequest_from fuel a (sendRequest_step a p st).2 (sendRequest_step a p st).1.
Proof. intros Hp. simpl. destruct p; try done; by destruct (sendRequest_step a _ st). Qed.

Lemma sendRequest_from_PSend fuel a st : sendRequest_from fuel a PSend st = st.
Proof. by destruct fuel. Qed.

Ltac request_op :=
  cbv beta iota zeta delta [fst snd];
  rewrite sendRequest_from_S by done;
  cbv beta iota zeta delta
    [sendRequest_step fst snd duration result
     set_TotalRequests set_SuccessfulRequests set_FailedRequests set_TotalDuration
     set_MinDuration set_MaxDuration set_StatusCodes
     TotalRequests SuccessfulRequests FailedRequests TotalDuration MinDuration
     MaxDuration StatusCodes].

Lemma sendRequest_record a st : sendRequest a st = record a st.
Proof.
  destruct st as [t s f d mn mx m]. destruct a as [da ra].
  unfold sendRequest, record.
  cbn [duration result TotalRequests SuccessfulRequests FailedRequests TotalDuration
       MinDuration MaxDuration StatusCodes].
  do 4 request_op.
  destruct (da <? mn)%Z; [request_op; rewrite Z.eqb_refl |];
    request_op; (destruct (mx <? da)%Z; [request_op; rewrite Z.eqb_refl |]);
    (destruct ra as [code|];
     [do 2 request_op; destruct (m !! code); request_op | request_op]);
    cbv beta iota zeta delta [fst snd]; by rewrite sendRequest_from_PSend.
Qed.

(** ** The claims about the engine *)

(** C1, as amended.  For a run with at least one worker and a request count
    [N] with [0 <= N] that fits the counters, once [runLoadTest] has returned:
    successful plus failed equals total, total equals [N], no counter is
    negative, and for [N = 0] all three are zero. *)
Theorem totals_add_up sched :
  (0 <= NumRequests cfg <= max_int64)%Z -> (1 <= Concurrency cfg)%Z ->
  returned (run cfg exec sched init) ->
  let st := stats (run cfg exec sched init) in
  (SuccessfulRequests st + FailedRequests st)%Z = TotalRequests st /\
  TotalRequests st = NumRequests cfg /\
  (0 <= SuccessfulRequests st)%Z /\ (0 <= FailedRequests st)%Z /\
  (NumRequests cfg = 0%Z ->
   TotalRequests st = 0%Z /\ SuccessfulRequests st = 0%Z /\ FailedRequests st = 0%Z).
Proof.
  intros HN HC Hret st.
  pose proof (inv_run sched init inv_init) as Hinv.
  destruct (returned_totals _ Hinv Hret HN HC) as (H1 & H2 & H3).
  pose proof (tally_ok_err (seq 0 (n_jobs cfg))) as HS. rewrite length_seq in HS.
  pose proof (tally_ok_nonneg (seq 0 (n_jobs cfg))).
  pose proof (tally_err_nonneg (seq 0 (n_jobs cfg))).
  pose proof (n_jobs_range (proj1 HN)).
  subst st. rewrite H1, H2, H3. split_and!; try lia.
Qed.


(** C6, as amended.  Once [runLoadTest] has returned, the recorded minimum
    is at most, and the recorded maximum at least, every recorded duration;
    they are the least and the greatest of the durations and the starting
    values (one hour, zero).  A first observation replaces the one-hour
    sentinel when it is shorter than one hour, and leaves it when it is not.
    Durations of 10ms, 50ms, 5ms and 100ms give min 5ms, max 100ms and
    average 41.25ms. *)
Theorem extremes_bound_durations sched :
  returned (run cfg exec sched init) ->
  let s := run cfg exec sched init in
  let st := stats s in
  Forall (fun j => (MinDuration st <= dur exec j <= MaxDuration st)%Z) (finished s) /\
  MinDuration st = min_over (dur exec <$> finished s) /\
  MaxDuration st = max_over (dur exec <$> finished s) /\
  ((1 <= Concurrency cfg)%Z -> finished s ≡ₚ seq 0 (n_jobs cfg)) /\
  (forall a, (duration a < Hour)%Z -> MinDuration (sendRequest a new_stats) = duration a) /\
  (forall a, (Hour <= duration a)%Z -> MinDuration (sendRequest a new_stats) = Hour) /\
  ((1 <= Concurrency cfg)%Z -> NumRequests cfg = 4%Z ->
   (forall j, j < 4 -> dur exec j = (nth j [10; 50; 5; 100] 0 * Millisecond)%Z) ->
   MinDuration st = (5 * Millisecond)%Z /\ MaxDuration st = (100 * Millisecond)%Z /\
   avgDuration st = 41250000%Z).
Proof.
  intros Hret s st. pose proof (inv_run sched init inv_init) as Hinv.
  destruct (returned_stats _ Hinv Hret) as (H1 & H2 & H3 & H4 & H5 & H6 & H7).
  split_and!; try done.
  - intros HC. by apply returned_finished.
  - intros a Ha. rewrite sendRequest_record. simpl.
    apply Z.ltb_lt in Ha. by rewrite Ha.
  - intros a Ha. rewrite sendRequest_record. simpl.
    apply Z.ltb_ge in Ha. by rewrite Ha.
  - intros HC HN Hd.
    pose proof (returned_finished _ Hinv Hret HC) as HP.
    assert (n_jobs cfg = 4) as Hn by (unfold n_jobs; rewrite HN; done).
    rewrite Hn in HP. simpl in HP.
    subst st s. unfold avgDuration.
    rewrite H1, H4, H5, H6.
    rewrite (min_over_perm _ _ (fmap_Permutation (dur exec) _ _ HP)).
    rewrite (max_over_perm _ _ (fmap_Permutation (dur exec) _ _ HP)).
    rewrite (tally_Permutation (dur exec) _ _ HP), (Permutation_length HP).
    simpl. rewrite !Hd by lia. simpl. done.
Qed.

(** C7.  A failed attempt adds one to the failed count and [sendRequest]
    returns; the worker then reports the completion and is back at the head
    of its loop; a worker leaves its loop only when it finds the job queue
    closed and empty; from every state of a run, whatever the outcomes, the
    run can be brought to its end, and a run that can go no further has
    returned; at the end the failed count is the number of failed attempts. *)
Theorem failure_never_aborts :
  (forall w s j,
     workers s !! w = Some (WBusy j PClassify) -> result (exec j) = TransportErr ->
     step cfg exec (TWorker w) s =
     Some (set_worker w (WBusy j PSend)
             (set_stats (set_FailedRequests (wrap64 (FailedRequests (stats s) + 1))
                           (stats s)) s))) /\
  (forall w s j,
     reachable cfg exec s -> workers s !! w = Some (WBusy j PSend) ->
     exists s', step cfg exec (TWorker w) s = Some s' /\ workers s' !! w = Some WIdle) /\
  (forall t s s' w,
     step cfg exec t s = Some s' ->
     workers s' !! w = Some WReturning -> workers s !! w <> Some WReturning ->
     t = TWorker w /\ workers s !! w = Some WIdle /\ jobs s = [] /\ jobs_closed s = true) /\
  (forall s, reachable cfg exec s ->
     exists sched s', steps cfg exec s sched s' /\ returned s') /\
  (forall s, reachable cfg exec s -> (forall t, step cfg exec t s = None) -> returned s) /\
  (forall sched,
     (0 <= NumRequests cfg <= max_int64)%Z -> (1 <= Concurrency cfg)%Z ->
     returned (run cfg exec sched init) ->
     FailedRequests (stats (run cfg exec sched init)) = tally (err exec) (seq 0 (n_jobs cfg))).
Proof.
  split_and!.
  - intros w s j Hw Hr. simpl. unfold worker_step. rewrite Hw. simpl. by rewrite Hr.
  - intros w s j Hreach Hw. pose proof (inv_reachable s Hreach) as Hinv.
    pose proof (inv_jobs _ _ _ Hinv) as HJ. pose proof (inv_fin _ _ _ Hinv) as HF.
    apply Permutation_length in HJ. rewrite !length_app, length_seq in HJ.
    assert (0 < length (past 0 (workers s))) as Hpos.
    { pose proof (past_elem_lookup 0 _ _ _ j Hw) as Hin. simpl in Hin.
      destruct (past 0 (workers s)); [| simpl; lia].
      exfalso. eapply elem_of_nil, Hin. by left. }
    simpl. unfold worker_step. rewrite Hw. unfold n_jobs in HJ.
    destruct (Z.of_nat (results s) <? NumRequests cfg)%Z eqn:Hn.
    + eexists. split; [done |]. simpl. apply list_lookup_insert_eq.
      by eapply lookup_lt_Some.
    + exfalso. apply Z.ltb_ge in Hn. lia.
  - intros t s s' w H Hafter Hbefore.
    step_cases H; destruct s as [mpc wpc ws g qs qc rs rc sts cp pg cl fin]; simpl in *; simplify_eq/=; try done.
    + apply lookup_app_Some in Hafter as [? | [_ Hafter]]; [done |].
      by destruct (w - length ws) as [|[|]].
    + destruct (decide (w = w0)) as [-> | Hne]; [| by rewrite list_lookup_insert_ne in Hafter].
      rewrite list_lookup_insert_eq in Hafter by (by eapply lookup_lt_Some). done.
    + destruct (decide (w = w0)) as [-> | Hne]; [done |].
      by rewrite list_lookup_insert_ne in Hafter.
    + destruct (decide (w = w0)) as [-> | Hne]; [| by rewrite list_lookup_insert_ne in Hafter].
      rewrite list_lookup_insert_eq in Hafter by (by eapply lookup_lt_Some). done.
    + destruct (decide (w = w0)) as [-> | Hne]; [| by rewrite list_lookup_insert_ne in Hafter].
      rewrite list_lookup_insert_eq in Hafter by (by eapply lookup_lt_Some). done.
    + destruct (decide (w = w0)) as [-> | Hne]; [| by rewrite list_lookup_insert_ne in Hafter].
      rewrite list_lookup_insert_eq in Hafter by (by eapply lookup_lt_Some). done.
  - intros s Hreach. apply completes. by apply inv_reachable.
  - intros s Hreach. apply stuck_returned. by apply inv_reachable.
  - intros sched HN HC Hret. pose proof (inv_run sched init inv_init) as Hinv.
    by destruct (returned_totals _ Hinv Hret HN HC) as (_ & _ & ?).
Qed.

(** ** Further properties of the engine *)

Lemma foldr_min_shift d m l : foldr Z.min (Z.min d m) l = Z.min d (foldr Z.min m l).
Proof. induction l as [|x l IH]; simpl; [done |]. rewrite IH. lia. Qed.

Lemma foldr_max_shift d m l : foldr Z.max (Z.max d m) l = Z.max d (foldr Z.max m l).
Proof. induction l as [|x l IH]; simpl; [done |]. rewrite IH. lia. Qed.

Lemma tally_cons f j l : tally f (j :: l) = (f j + tally f l)%Z.
Proof. done. Qed.

(** The counters of the serial computation, outcome by outcome. *)
Lemma record_all_counters (l : list nat) st0 :
  int64_range (TotalRequests st0) -> int64_range (SuccessfulRequests st0) ->
  int64_range (FailedRequests st0) -> int64_range (TotalDuration st0) ->
  let st := record_all (exec <$> l) st0 in
  TotalRequests st = wrap64 (TotalRequests st0 + Z.of_nat (length l)) /\
  SuccessfulRequests st = wrap64 (SuccessfulRequests st0 + tally (ok exec) l) /\
  FailedRequests st = wrap64 (FailedRequests st0 + tally (err exec) l) /\
  TotalDuration st = wrap64 (TotalDuration st0 + tally (dur exec) l) /\
  MinDuration st = foldr Z.min (MinDuration st0) (dur exec <$> l) /\
  MaxDuration st = foldr Z.max (MaxDuration st0) (dur exec <$> l).
Proof.
  revert st0. induction l as [|j l IH]; intros st0 H1 H2 H3 H4.
  - simpl. rewrite !Z.add_0_r, !wrap64_id by done. done.
  - unfold record_all in *. cbn [fmap list_fmap foldl].
    specialize (IH (record (exec j) st0)). cbn zeta in IH.
    destruct IH as (I1 & I2 & I3 & I4 & I5 & I6).
    + apply wrap64_range.
    + simpl. destruct (result (exec j)); [apply wrap64_range | done].
    + simpl. destruct (result (exec j)); [done | apply wrap64_range].
    + apply wrap64_range.
    + cbn zeta. rewrite I1, I2, I3, I4, I5, I6. clear I1 I2 I3 I4 I5 I6.
      cbn [record TotalRequests SuccessfulRequests FailedRequests TotalDuration
           MinDuration MaxDuration length fmap list_fmap foldr].
      rewrite !tally_cons. unfold ok, err, dur.
      split_and!.
      * rewrite wrap64_add_l. f_equal. lia.
      * destruct (result (exec j)); [rewrite wrap64_add_l |]; f_equal; lia.
      * destruct (result (exec j)); [| rewrite wrap64_add_l]; f_equal; lia.
      * rewrite wrap64_add_l. f_equal. lia.
      * rewrite <- foldr_min_shift. f_equal.
        destruct (duration (exec j) <? MinDuration st0)%Z eqn:Hlt;
          [apply Z.ltb_lt in Hlt | apply Z.ltb_ge in Hlt]; lia.
      * rewrite <- foldr_max_shift. f_equal.
        destruct (MaxDuration st0 <? duration (exec j))%Z eqn:Hlt;
          [apply Z.ltb_lt in Hlt | apply Z.ltb_ge in Hlt]; lia.
Qed.

Lemma zero_in_range : int64_range 0.
Proof. unfold int64_range, min_int64, max_int64. lia. Qed.

(** X1.  With at least one worker, however the goroutines interleave, once
    [runLoadTest] has returned the six atomic fields of [Stats] are those of
    recording the outcomes of jobs 0 to N-1 one after the other. *)
Theorem counters_match_serial sched :
  (1 <= Concurrency cfg)%Z ->
  returned (run cfg exec sched init) ->
  let st := stats (run cfg exec sched init) in
  let serial := record_all (exec <$> seq 0 (n_jobs cfg)) new_stats in
  TotalRequests st = TotalRequests serial /\
  SuccessfulRequests st = SuccessfulRequests serial /\
  FailedRequests st = FailedRequests serial /\
  TotalDuration st = TotalDuration serial /\
  MinDuration st = MinDuration serial /\
  MaxDuration st = MaxDuration serial.
Proof.
  intros HC Hret st serial. pose proof (inv_run sched init inv_init) as Hinv.
  destruct (returned_stats _ Hinv Hret) as (H1 & H2 & H3 & H4 & H5 & H6 & _).
  pose proof (returned_finished _ Hinv Hret HC) as HP.
  destruct (record_all_counters (seq 0 (n_jobs cfg)) new_stats
              zero_in_range zero_in_range zero_in_range zero_in_range)
    as (S1 & S2 & S3 & S4 & S5 & S6).
  subst st serial. rewrite H1, H2, H3, H4, H5, H6, S1, S2, S3, S4, S5, S6.
  rewrite (min_over_perm _ _ (fmap_Permutation (dur exec) _ _ HP)).
  rewrite (max_over_perm _ _ (fmap_Permutation (dur exec) _ _ HP)).
  rewrite HP. simpl. done.
Qed.

Lemma past_weaken k (ws : list wstate) j : j ∈ past k ws -> j ∈ past 0 ws.
Proof.
  unfold past. rewrite !list_elem_of_bind. intros (w & Hj & Hw). exists w.
  split; [| done]. destruct w as [|j' p| |]; simpl in *; try done.
  destruct (k <=? stage p); [done | by apply elem_of_nil in Hj].
Qed.

Lemma past_sublist k (ws : list wstate) : past k ws `sublist_of` past 0 ws.
Proof.
  unfold past. induction ws as [|w ws IH]; simpl; [done |].
  apply sublist_app; [| done]. destruct w as [|j p| |]; simpl; try done.
  destruct (k <=? stage p); [done | apply sublist_nil_l].
Qed.

Lemma inflight_below s j :
  inv cfg exec s -> j ∈ past 0 (workers s) ++ finished s -> j < n_jobs cfg.
Proof.
  intros Hinv Hj. pose proof (inv_jobs _ _ _ Hinv) as HJ.
  assert (j ∈ seq 0 (n_jobs cfg)) as Hin.
  { rewrite <- HJ. rewrite !elem_of_app. apply elem_of_app in Hj. tauto. }
  apply elem_of_seq in Hin. lia.
Qed.

(** X2.  At every moment of every run, each bucket of the status-code
    histogram has the status code of a response that some job below N
    received; so when every attempt fails the histogram is empty. *)
Theorem histogram_keys_are_responses sched code count :
  StatusCodes (stats (run cfg exec sched init)) !! code = Some count ->
  (exists j, j < n_jobs cfg /\ result (exec j) = Response code) /\
  ((forall j, j < n_jobs cfg -> result (exec j) = TransportErr) -> False).
Proof.
  intros Hc. pose proof (inv_run sched init inv_init) as Hinv.
  pose proof (hist_run sched init hist_init) as HH.
  destruct (hist_keys _ _ HH code count Hc) as (j & Hj & Hr).
  assert (j < n_jobs cfg) as Hlt.
  { apply (inflight_below _ j Hinv). apply elem_of_app.
    apply elem_of_app in Hj as [Hj | Hj]; [left | by right]. by eapply past_weaken. }
  split; [by exists j |]. intros Hall. rewrite (Hall j Hlt) in Hr. done.
Qed.

Lemma past_cons k w (ws : list wstate) : past k (w :: ws) = wpast k w ++ past k ws.
Proof. done. Qed.

Lemma lag_bounds (ws : list wstate) :
  (tally (ok exec) (past 6 ws) + tally (err exec) (past 6 ws)
   <= tally (fun _ => 1) (past 2 ws) <= Z.of_nat (length ws))%Z /\
  (tally (fun _ => 1) (past 2 ws) <= tally (fun _ => 1) (past 0 ws))%Z.
Proof.
  induction ws as [|w ws IH]; [simpl; lia |].
  rewrite !past_cons, !tally_app. simpl length.
  assert ((tally (ok exec) (wpast 6 w) + tally (err exec) (wpast 6 w)
           <= tally (fun _ => 1) (wpast 2 w) <= 1)%Z /\
          (tally (fun _ => 1) (wpast 2 w) <= tally (fun _ => 1) (wpast 0 w))%Z) as Hw.
  { destruct w as [|j p| |]; simpl; try lia.
    destruct p; simpl; unfold ok, err; destruct (result (exec j)); lia. }
  lia.
Qed.

(** X3.  At every moment of every run whose request count fits the
    counters: the successful and failed counts together never exceed the
    total, the total never exceeds N, and the total is ahead of their sum by
    at most the number of workers (the requests between the two updates). *)
Theorem counts_lag_at_most_workers sched :
  (0 <= NumRequests cfg <= max_int64)%Z ->
  let st := stats (run cfg exec sched init) in
  (0 <= SuccessfulRequests st)%Z /\ (0 <= FailedRequests st)%Z /\
  (SuccessfulRequests st + FailedRequests st <= TotalRequests st)%Z /\
  (TotalRequests st <= NumRequests cfg)%Z /\
  (TotalRequests st - (SuccessfulRequests st + FailedRequests st)
   <= Z.of_nat (n_workers cfg))%Z.
Proof.
  intros HN st. pose proof (inv_run sched init inv_init) as Hinv.
  pose proof (inv_total _ _ _ Hinv) as H1. pose proof (inv_succ _ _ _ Hinv) as H2.
  pose proof (inv_fail _ _ _ Hinv) as H3. pose proof (inv_jobs _ _ _ Hinv) as HJ.
  pose proof (inv_workers_bound _ Hinv) as HB.
  apply Permutation_length in HJ. rewrite !length_app, length_seq in HJ.
  set (ws := workers (run cfg exec sched init)) in *.
  set (fin := finished (run cfg exec sched init)) in *.
  destruct (lag_bounds ws) as [[L1 L2] L3].
  pose proof (tally_ok_err fin). pose proof (tally_ok_nonneg fin).
  pose proof (tally_err_nonneg fin). pose proof (tally_ok_nonneg (past 6 ws)).
  pose proof (tally_err_nonneg (past 6 ws)).
  pose proof (tally_const_length fin) as HF.
  pose proof (tally_const_length (past 0 ws)) as HP0.
  pose proof (n_jobs_range (proj1 HN)).
  subst st. rewrite H1, H2, H3.
  rewrite !wrap64_id; unfold int64_range, min_int64, max_int64 in *; lia.
Qed.

(** X4.  At every moment of every run, for any number of workers: no job
    index has been given to [client.Do] twice, every index given is below N,
    and the worker named exists. *)
Theorem never_called_twice sched :
  let s := run cfg exec sched init in
  NoDup (calls s).*2 /\
  Forall (fun c => c.2 < n_jobs cfg /\ c.1 < length (workers s)) (calls s).
Proof.
  intros s. pose proof (inv_run sched init inv_init) as Hinv. fold s in Hinv.
  pose proof (inv_calls _ _ _ Hinv) as HC. pose proof (inv_jobs _ _ _ Hinv) as HJ.
  assert (NoDup (past 0 (workers s) ++ finished s)) as HN0.
  { assert (NoDup (unsent cfg (main_pc s) ++ jobs s ++ past 0 (workers s) ++ finished s))
      as HN by (rewrite HJ; apply NoDup_seq).
    apply (sublist_NoDup _ _ HN). do 2 apply sublist_inserts_l. done. }
  assert (NoDup (past 1 (workers s) ++ finished s)) as HN1.
  { apply (sublist_NoDup _ _ HN0). apply sublist_app; [apply past_sublist | done]. }
  split; [by rewrite HC |].
  pose proof (inv_callers _ _ _ Hinv) as HW. rewrite Forall_forall in *.
  intros c Hc. split; [| by apply HW].
  apply (inflight_below s _ Hinv).
  assert (c.2 ∈ (calls s).*2) as Hin by (by apply list_elem_of_fmap_2).
  rewrite HC in Hin. apply elem_of_app. apply elem_of_app in Hin as [Hin | Hin]; [left | by right].
  by eapply past_weaken.
Qed.

(** X5.  With a concurrency of zero or less no worker is started: at every
    moment the statistics are untouched and no request was sent; the run can
    still be brought to its end, and all N jobs are then left in the queue. *)
Theorem no_worker_no_effect :
  (Concurrency cfg <= 0)%Z ->
  (forall sched,
     let s := run cfg exec sched init in
     stats s = new_stats /\ calls s = [] /\ workers s = [] /\
     (returned s -> jobs s ≡ₚ seq 0 (n_jobs cfg))) /\
  exists sched, returned (run cfg exec sched init).
Proof.
  intros HC. split.
  - intros sched s. pose proof (inv_run sched init inv_init) as Hinv. fold s in Hinv.
    pose proof (hist_run sched init hist_init) as HH. fold s in HH.
    pose proof (inv_workers_bound _ Hinv) as HB.
    assert (workers s = []) as Hws.
    { apply nil_length_inv. unfold n_workers in HB. lia. }
    pose proof (inv_callers _ _ _ Hinv) as HW. rewrite Hws in HW.
    assert (calls s = []) as Hcalls.
    { destruct (calls s) as [|c l]; [done |]. apply Forall_cons in HW as [HW _].
      simpl in HW. lia. }
    pose proof (inv_calls _ _ _ Hinv) as HP. rewrite Hcalls, Hws in HP. simpl in HP.
    assert (finished s = []) as Hfin by (by apply Permutation_nil_l in HP).
    split_and!; try done.
    + pose proof (inv_total _ _ _ Hinv) as H1. pose proof (inv_duration _ _ _ Hinv) as H2.
      pose proof (inv_succ _ _ _ Hinv) as H3. pose proof (inv_fail _ _ _ Hinv) as H4.
      pose proof (inv_min_in _ _ _ Hinv) as H5. pose proof (inv_max_in _ _ _ Hinv) as H6.
      pose proof (hist_keys _ _ HH) as H7.
      rewrite Hws, Hfin in *. simpl in *.
      destruct (stats s) as [t su f d mn mx m]. simpl in *.
      rewrite wrap64_id in H1, H2, H3, H4 by apply zero_in_range. subst t d su f.
      destruct H5 as [-> | (j & Hj & _)]; [| by apply elem_of_nil in Hj].
      destruct H6 as [-> | (j & Hj & _)]; [| by apply elem_of_nil in Hj].
      assert (m = ∅) as ->; [| done].
      apply map_eq. intros code. rewrite lookup_empty.
      destruct (m !! code) as [c|] eqn:Hm; [| done].
      destruct (H7 code c Hm) as (j & Hj & _). by apply elem_of_nil in Hj.
    + intros Hret. pose proof (inv_jobs _ _ _ Hinv) as HJ.
      rewrite Hret, Hws, Hfin in HJ. simpl in HJ. by rewrite app_nil_r in HJ.
  - destruct (completes init inv_init) as (sched & s & Hs & Hr).
    exists sched. by rewrite (steps_run _ _ _ Hs).
Qed.

(** X6.  At every moment of every run: once [results] is closed every
    worker has ended, so no worker can send on the closed channel; and once
    [jobs] is closed the sending loop is over and all N jobs were queued. *)
Theorem no_send_after_close sched :
  let s := run cfg exec sched init in
  (results_closed s = true -> Forall exited (workers s) /\ wg s = 0) /\
  (jobs_closed s = true ->
   unsent cfg (main_pc s) = [] /\
   forall i, main_pc s <> MSend i).
Proof.
  intros s. pose proof (inv_run sched init inv_init) as Hinv. fold s in Hinv.
  split.
  - intros Hc. apply (inv_rclosed _ _ _ Hinv) in Hc.
    assert (wg s = 0) as Hwg by (apply (inv_wg0 _ _ _ Hinv); by right).
    split; [| done]. apply alive_exited. by rewrite <- (inv_wg _ _ _ Hinv).
  - intros Hc. pose proof (inv_phase _ _ _ Hinv) as Hph.
    destruct (main_pc s); destruct Hph as [Hph _]; try congruence; done.
Qed.

Arguments Nat.div : simpl never.
Arguments Nat.modulo : simpl never.

Lemma marks_step t s s' :
  step cfg exec t s = Some s' ->
  progress s = progress_marks (completed s / 100) ->
  progress s' = progress_marks (completed s' / 100).
Proof.
  intros H HP.
  step_cases H; destruct s as [mpc wpc ws g qs qc rs rc sts cp pg cl fin];
    simpl in *; simplify_eq/=; try done.
  - match goal with Hm : (_ =? 0) = true |- _ => apply Nat.eqb_eq in Hm end.
    pose proof (Nat.div_mod_eq cp 100). pose proof (Nat.div_mod_eq (S cp) 100).
    pose proof (Nat.mod_upper_bound cp 100 ltac:(lia)).
    replace (S cp / 100) with (S (cp / 100)) by lia.
    unfold progress_marks. rewrite seq_S, fmap_app. simpl. do 2 f_equal. lia.
  - match goal with Hm : (_ =? 0) = false |- _ => apply Nat.eqb_neq in Hm end.
    pose proof (Nat.div_mod_eq cp 100). pose proof (Nat.div_mod_eq (S cp) 100).
    pose proof (Nat.mod_upper_bound cp 100 ltac:(lia)).
    pose proof (Nat.mod_upper_bound (S cp) 100 ltac:(lia)).
    replace (S cp / 100) with (cp / 100) by lia. done.
Qed.

Lemma marks_run sched s :
  progress s = progress_marks (completed s / 100) ->
  progress (run cfg exec sched s) = progress_marks (completed (run cfg exec sched s) / 100).
Proof.
  revert s. induction sched as [|t sched IH]; intros s Hs; simpl; [done |].
  apply IH. destruct (step cfg exec t s) as [s'|] eqn:Ht; simpl; [| done].
  by eapply marks_step.
Qed.

(** X7.  At every moment of every run the progress loop has printed
    exactly the multiples of 100 up to the number of completions it has
    counted, in increasing order; with at least one worker it has counted
    all N completions when [runLoadTest] returns. *)
Theorem progress_every_hundred sched :
  let s := run cfg exec sched init in
  progress s = progress_marks (completed s / 100) /\
  completed s <= length (finished s) /\
  ((1 <= Concurrency cfg)%Z -> returned s ->
   completed s = n_jobs cfg /\ progress s = progress_marks (n_jobs cfg / 100)).
Proof.
  intros s. pose proof (inv_run sched init inv_init) as Hinv. fold s in Hinv.
  pose proof (marks_run sched init eq_refl) as HP. fold s in HP.
  pose proof (inv_fin _ _ _ Hinv) as HF.
  split_and!; [done | lia |].
  intros HC Hret. destruct (inv_done _ _ _ Hinv Hret) as [_ Hr].
  pose proof (returned_finished _ Hinv Hret HC) as HQ.
  apply Permutation_length in HQ. rewrite length_seq in HQ.
  assert (completed s = n_jobs cfg) as Hc by lia. by rewrite <- Hc.
Qed.

(** *** A single worker *)

Ltac runs_op :=
  cbv beta iota zeta delta [fst snd];
  apply runs_to_step; [done |];
  cbv beta iota zeta delta
    [sendRequest_step fst snd duration result
     set_TotalRequests set_SuccessfulRequests set_FailedRequests set_TotalDuration
     set_MinDuration set_MaxDuration set_StatusCodes
     TotalRequests SuccessfulRequests FailedRequests TotalDuration MinDuration
     MaxDuration StatusCodes].

(** Left alone, [sendRequest] returns, with the outcome recorded. *)
Lemma runs_to_record a st : runs_to a PDo st (record a st).
Proof.
  destruct st as [t s f d mn mx m]. destruct a as [da ra].
  unfold record.
  cbn [duration result TotalRequests SuccessfulRequests FailedRequests TotalDuration
       MinDuration MaxDuration StatusCodes].
  do 4 runs_op.
  destruct (da <? mn)%Z; [runs_op; rewrite Z.eqb_refl |];
    runs_op; (destruct (mx <? da)%Z; [runs_op; rewrite Z.eqb_refl |]);
    (destruct ra as [code|];
     [do 2 runs_op; destruct (m !! code); runs_op | runs_op]);
    cbv beta iota zeta delta [fst snd]; apply runs_to_return.
Qed.

Lemma runs_to_send a st st' : runs_to a PSend st st' -> st = st'.
Proof. inversion 1; [done | congruence]. Qed.

Lemma runs_to_next a p st st' :
  p <> PSend -> runs_to a p st st' ->
  runs_to a (sendRequest_step a p st).2 (sendRequest_step a p st).1 st'.
Proof. intros Hp H. inversion H; subst; [done | done]. Qed.

Lemma record_all_snoc (l : list nat) j st :
  record_all (exec <$> (l ++ [j])) st = record (exec j) (record_all (exec <$> l) st).
Proof. unfold record_all. by rewrite fmap_app, foldl_app. Qed.

Lemma single_lookup (ws : list wstate) w x :
  length ws <= 1 -> ws !! w = Some x -> ws = [x] /\ w = 0.
Proof.
  intros Hl Hw. destruct ws as [|y [|z ws]]; simpl in *; [done | | lia].
  destruct w as [|w]; simpl in *; [by simplify_eq | done].
Qed.

Arguments alone_inv : simpl never.

Lemma alone_step t s s' :
  n_workers cfg <= 1 -> inv cfg exec s ->
  step cfg exec t s = Some s' -> alone_inv cfg exec s -> alone_inv cfg exec s'.
Proof.
  intros H1w Hinv H Ha. pose proof (inv_workers_bound s Hinv) as HB.
  assert (forall w, main_pc s = MSpawn w -> length (workers s) = w) as HL.
  { intros w Hw. pose proof (inv_len _ _ _ Hinv) as HL. rewrite Hw in HL. tauto. }
  clear Hinv.
  step_cases H; destruct s as [mpc wpc ws g qs qc rs rc sts cp pg cl fin];
    simpl in *; simplify_eq/=; destruct Ha as [HO HS]; unfold alone_inv; simpl in *;
    try done.
  - match goal with Hlt : (_ <? _)%Z = true |- _ => apply Z.ltb_lt in Hlt end.
    specialize (HL w eq_refl).
    assert (ws = []) as -> by (apply nil_length_inv; unfold n_workers in *; lia).
    done.
  - by rewrite Nat.sub_0_r.
  - rewrite unsent_send in HO by done. rewrite <- HO. split; [| done].
    by rewrite <- !(assoc_L (++)).
  - rewrite unsent_end in HO by done. done.
  - assert (length ws <= 1) as Hlen by lia.
    match goal with Hw : ws !! _ = Some _ |- _ =>
      destruct (single_lookup _ _ _ Hlen Hw) as [-> ->] end. simpl in *.
    split; [done |]. rewrite HS. apply runs_to_record.
  - assert (length ws <= 1) as Hlen by lia.
    match goal with Hw : ws !! _ = Some _ |- _ =>
      destruct (single_lookup _ _ _ Hlen Hw) as [-> ->] end. simpl in *. done.
  - assert (length ws <= 1) as Hlen by lia.
    match goal with Hw : ws !! _ = Some _ |- _ =>
      destruct (single_lookup _ _ _ Hlen Hw) as [-> ->] end. simpl in *. done.
  - assert (length ws <= 1) as Hlen by lia.
    match goal with Hw : ws !! _ = Some _ |- _ =>
      destruct (single_lookup _ _ _ Hlen Hw) as [-> ->] end. simpl in *.
    rewrite <- !(assoc_L (++)) in *. split; [done |].
    rewrite record_all_snoc. by apply runs_to_send in HS.
  - assert (length ws <= 1) as Hlen by lia.
    match goal with Hw : ws !! _ = Some _ |- _ =>
      destruct (single_lookup _ _ _ Hlen Hw) as [-> ->] end. simpl in *.
    split; [done |].
    match goal with
    | Hp : _ <> PSend, Hs : sendRequest_step _ _ _ = _ |- _ =>
        pose proof (runs_to_next _ _ _ _ Hp HS) as HN; rewrite Hs in HN; exact HN
    end.
Qed.

Lemma alone_init : alone_inv cfg exec init.
Proof. split; simpl; done. Qed.

Lemma alone_run sched :
  n_workers cfg <= 1 -> alone_inv cfg exec (run cfg exec sched init).
Proof.
  intros H1w.
  assert (forall s, inv cfg exec s -> alone_inv cfg exec s ->
                    alone_inv cfg exec (run cfg exec sched s)) as HR.
  { induction sched as [|t sched IH]; intros s Hs Ha; simpl; [done |].
    destruct (step cfg exec t s) as [s'|] eqn:Ht; simpl; [| by apply IH].
    apply IH; [by eapply inv_step | by eapply alone_step]. }
  apply HR; [apply inv_init | apply alone_init].
Qed.

(** X8.  With a concurrency of one, when [runLoadTest] has returned the
    whole of [Stats], the status-code histogram included, is what recording
    the outcomes of jobs 0 to N-1 one after the other gives. *)
Theorem single_worker_is_serial sched :
  Concurrency cfg = 1%Z ->
  returned (run cfg exec sched init) ->
  stats (run cfg exec sched init) = record_all (exec <$> seq 0 (n_jobs cfg)) new_stats.
Proof.
  intros HC Hret. pose proof (inv_run sched init inv_init) as Hinv.
  assert (n_workers cfg = 1) as H1 by (unfold n_workers; lia).
  destruct (alone_run sched ltac:(lia)) as [HO HS].
  pose proof (returned_exited _ Hinv Hret) as HE.
  pose proof (returned_drained _ Hinv Hret ltac:(lia)) as HJ.
  rewrite (past_nil_exited 0 _ HE), HJ, Hret in HO. simpl in HO.
  rewrite app_nil_r in HO. rewrite <- HO.
  destruct (workers (run cfg exec sched init)) as [|x [|y ws]]; try done;
    apply Forall_cons in HE as [-> _]; done.
Qed.

(** X9.  No run performs more than [3 C + N (4 C + 18) + 7] atomic
    operations, for [C] workers and [N] requests: every run ends. *)
Theorem operations_bounded sched s :
  steps cfg exec init sched s ->
  length sched <= 3 * n_workers cfg + n_jobs cfg * (4 * n_workers cfg + 18) + 7.
Proof.
  intros Hs. pose proof (steps_bounded _ _ _ inv_init Hs) as HB.
  assert (measure cfg init
          = 3 * n_workers cfg + n_jobs cfg * (4 * n_workers cfg + 18) + 7) as Hm.
  { unfold measure, job_weight, retry_reserve. simpl.
    unfold job_weight, retry_reserve. lia. }
  lia.
Qed.

(** X10.  At every moment of every run neither channel send blocks: when
    the sending loop is about to queue a job there is room in [jobs], and
    when a worker is about to report a completion there is room in
    [results]. *)
Theorem sends_never_block sched :
  let s := run cfg exec sched init in
  (forall i, main_pc s = MSend i -> is_Some (main_step cfg s)) /\
  (forall w j, workers s !! w = Some (WBusy j PSend) ->
               is_Some (worker_step cfg exec w s)).
Proof.
  intros s. pose proof (inv_run sched init inv_init) as Hinv. fold s in Hinv.
  pose proof (inv_jobs _ _ _ Hinv) as HJ. pose proof (inv_fin _ _ _ Hinv) as HF.
  apply Permutation_length in HJ. rewrite !length_app, length_seq in HJ.
  unfold n_jobs in HJ. split.
  - intros i Hm. unfold main_step. rewrite Hm. rewrite Hm in HJ. simpl in HJ.
    rewrite length_seq in HJ.
    destruct (Z.of_nat i <? NumRequests cfg)%Z eqn:Hi; [| done].
    destruct (Z.of_nat (length (jobs s)) <? NumRequests cfg)%Z eqn:Hl; [done |].
    exfalso. apply Z.ltb_lt in Hi. apply Z.ltb_ge in Hl. unfold n_jobs in HJ. lia.
  - intros w j Hw. unfold worker_step. rewrite Hw.
    assert (0 < length (past 0 (workers s))) as Hpos.
    { pose proof (past_elem_lookup 0 _ _ _ j Hw) as Hin. simpl in Hin.
      destruct (past 0 (workers s)); [| simpl; lia].
      exfalso. eapply elem_of_nil, Hin. by left. }
    destruct (Z.of_nat (results s) <? NumRequests cfg)%Z eqn:Hn; [done |].
    exfalso. apply Z.ltb_ge in Hn. lia.
Qed.

Lemma tally_between f lo hi l :
  Forall (fun j => (lo <= f j <= hi)%Z) l ->
  (Z.of_nat (length l) * lo <= tally f l <= Z.of_nat (length l) * hi)%Z.
Proof.
  induction 1 as [|j l Hj _ IH]; [simpl; lia |].
  rewrite tally_cons. change (length (j :: l)) with (S (length l)). lia.
Qed.

(** X11.  The average latency that [printResults] reports lies between the
    lowest and the highest latency it reports, for a finished run of at
    least one request with at least one worker, durations that are not
    negative and a sum of durations an [int64] holds. *)
Theorem average_between_extremes sched :
  (1 <= NumRequests cfg <= max_int64)%Z -> (1 <= Concurrency cfg)%Z ->
  (forall j, j < n_jobs cfg -> (0 <= dur exec j)%Z) ->
  (tally (dur exec) (seq 0 (n_jobs cfg)) <= max_int64)%Z ->
  returned (run cfg exec sched init) ->
  let st := stats (run cfg exec sched init) in
  (MinDuration st <= avgDuration st <= MaxDuration st)%Z.
Proof.
  intros HN HC Hd Hsum Hret st. pose proof (inv_run sched init inv_init) as Hinv.
  destruct (returned_stats _ Hinv Hret) as (H1 & _ & _ & H4 & _ & _ & H7).
  pose proof (returned_finished _ Hinv Hret HC) as HP.
  pose proof (Permutation_length HP) as HL. rewrite length_seq in HL.
  pose proof (tally_between _ _ _ _ H7) as HB.
  rewrite (tally_Permutation _ _ _ HP) in H4, HB.
  assert (0 <= tally (dur exec) (seq 0 (n_jobs cfg)))%Z as H0.
  { assert (forall l, Forall (fun j => (0 <= dur exec j)%Z) l ->
                      (0 <= tally (dur exec) l)%Z) as Hnn.
    { induction 1; [done |]. rewrite tally_cons. lia. }
    apply Hnn, Forall_forall. intros j Hj. apply Hd.
    apply elem_of_seq in Hj. lia. }
  assert (Z.of_nat (n_jobs cfg) = NumRequests cfg) as Hn by (apply n_jobs_range; lia).
  rewrite HL, Hn in H1, HB.
  rewrite wrap64_id in H1 by (unfold int64_range, min_int64, max_int64 in *; lia).
  rewrite wrap64_id in H4 by (unfold int64_range, min_int64, max_int64 in *; lia).
  subst st. unfold avgDuration. rewrite H1, H4.
  rewrite Z.quot_div_nonneg by lia. split.
  - apply Z.div_le_lower_bound; lia.
  - apply Z.div_le_upper_bound; lia.
Qed.

End Facts.

(** The run the corrections of C1 rest on: one request, no worker.
    [runLoadTest] returns, the job is still in the queue and every counter
    is zero, so the total is not the request count. *)
Lemma no_workers_no_requests :
  ¬ (forall cfg exec sched,
       (0 <= NumRequests cfg <= max_int64)%Z ->
       returned (run cfg exec sched init) ->
       let st := stats (run cfg exec sched init) in
       (SuccessfulRequests st + FailedRequests st)%Z = TotalRequests st /\
       TotalRequests st = NumRequests cfg).
Proof.
  intros H.
  destruct (H (config_of 1 0 "") always_200 (sequential 1 0)) as [_ Heq].
  - vm_compute. split; discriminate.
  - vm_compute. reflexivity.
  - vm_compute in Heq. discriminate.
Qed.

Lemma totals_add_up_witness :
  let st := stats (run (config_of 10 3 "") always_timeout (sequential 10 3) init) in
  (SuccessfulRequests st + FailedRequests st)%Z = TotalRequests st /\
  TotalRequests st = 10%Z /\
  (0 <= SuccessfulRequests st)%Z /\ (0 <= FailedRequests st)%Z /\
  (10%Z = 0%Z ->
   TotalRequests st = 0%Z /\ SuccessfulRequests st = 0%Z /\ FailedRequests st = 0%Z).
Proof.
  apply (totals_add_up (config_of 10 3 "") always_timeout (sequential 10 3)).
  - vm_compute. split; discriminate.
  - vm_compute. discriminate.
  - vm_compute. reflexivity.
Defined.


(** The run the correction of C6 rests on: one request that takes two
    hours.  It is recorded, and the minimum is still the one-hour sentinel,
    not the request's duration. *)
Lemma sentinel_survives_slow_request :
  let s := run (config_of 1 1 "") two_hours (sequential 1 1) init in
  returned s /\ TotalRequests (stats s) = 1%Z /\ finished s = [0] /\
  MinDuration (stats s) = Hour /\
  MinDuration (stats s) <> duration (two_hours 0) /\
  MinDuration (sendRequest (two_hours 0) new_stats) <> duration (two_hours 0).
Proof. vm_compute. split_and!; try reflexivity; discriminate. Qed.

Lemma extremes_bound_durations_witness :
  let st := stats (run (config_of 4 2 "") four_durations (sequential 4 2) init) in
  MinDuration st = (5 * Millisecond)%Z /\ MaxDuration st = (100 * Millisecond)%Z /\
  avgDuration st = 41250000%Z.
Proof.
  pose proof (extremes_bound_durations (config_of 4 2 "") four_durations (sequential 4 2))
    as H.
  destruct H as (_ & _ & _ & _ & _ & _ & H).
  - vm_compute. reflexivity.
  - apply H.
    + vm_compute. discriminate.
    + reflexivity.
    + intros j Hj. unfold dur, four_durations. simpl. reflexivity.
Defined.

Lemma failure_never_aborts_witness :
  FailedRequests (stats (run (config_of 10 3 "") always_timeout (sequential 10 3) init))
  = 10%Z.
Proof.
  pose proof (failure_never_aborts (config_of 10 3 "") always_timeout)
    as (_ & _ & _ & _ & _ & H).
  rewrite H.
  - vm_compute. reflexivity.
  - vm_compute. split; discriminate.
  - vm_compute. discriminate.
  - vm_compute. reflexivity.
Defined.

(** ** The histogram under interleaving *)

(** C2 at a failing run.  Two requests, two workers, both answered with
    status 200; both workers read the absent bucket before either writes it.
    [runLoadTest] returns with two successful requests and a histogram whose
    counts sum to one. *)
Theorem histogram_total_lost_update :
  let s := run (config_of 2 2 "") always_200 (overlapping 2 2) init in
  returned s /\
  SuccessfulRequests (stats s) = 2%Z /\
  histogram_total (StatusCodes (stats s)) = 1%Z.
Proof. vm_compute. split_and!; reflexivity. Qed.

(** C3 at a failing run.  On the same run the counters and the extremes
    are those of the serial computation over the same outcomes, and the
    bucket of status 200 holds one where the serial computation holds two. *)
Theorem histogram_differs_from_serial :
  let s := run (config_of 2 2 "") always_200 (overlapping 2 2) init in
  let serial := record_all (always_200 <$> seq 0 2) new_stats in
  returned s /\
  TotalRequests (stats s) = TotalRequests serial /\
  SuccessfulRequests (stats s) = SuccessfulRequests serial /\
  FailedRequests (stats s) = FailedRequests serial /\
  TotalDuration (stats s) = TotalDuration serial /\
  MinDuration (stats s) = MinDuration serial /\
  MaxDuration (stats s) = MaxDuration serial /\
  StatusCodes serial !! 200%Z = Some 2%Z /\
  StatusCodes (stats s) !! 200%Z = Some 1%Z.
Proof. vm_compute. split_and!; reflexivity. Qed.

(** C4 at a failing run.  A hundred requests, ten workers, status 200 for
    indices 0 to 94 and 500 for 95 to 99, the first two requests overlapping
    in the histogram update: a hundred successful, none failed, and the
    histogram is 200:94, 500:5. *)
Theorem scenario_200_500_lost_update :
  let s := run (config_of 100 10 "") mostly_200 (overlapping 100 10) init in
  returned s /\
  SuccessfulRequests (stats s) = 100%Z /\ FailedRequests (stats s) = 0%Z /\
  map_to_list (StatusCodes (stats s)) ≡ₚ [(200%Z, 94%Z); (500%Z, 5%Z)].
Proof.
  vm_compute. split_and!; try reflexivity. apply Permutation_swap.
Qed.

(** ** The template, its copies and the client *)

Section TemplateFacts.
Context (validMethod : string -> bool) (url_Parse : string -> option string).
Context (CanonicalMIMEHeaderKey : string -> string) (TrimSpace : string -> string).

Lemma Header_Set_body key value r :
  req_Body (Header_Set CanonicalMIMEHeaderKey key value r) = req_Body r /\
  ContentLength (Header_Set CanonicalMIMEHeaderKey key value r) = ContentLength r /\
  GetBody (Header_Set CanonicalMIMEHeaderKey key value r) = GetBody r.
Proof. done. Qed.

Lemma custom_headers_body headers r :
  let r' := foldl (add_custom_header CanonicalMIMEHeaderKey TrimSpace) r headers in
  req_Body r' = req_Body r /\ ContentLength r' = ContentLength r /\
  GetBody r' = GetBody r.
Proof.
  revert r. induction headers as [|h headers IH]; intros r; simpl; [done |].
  destruct (IH (add_custom_header CanonicalMIMEHeaderKey TrimSpace r h)) as (-> & -> & ->).
  unfold add_custom_header. by destruct (SplitN2 h) as [[? ?]|].
Qed.

Lemma substring_all s : String.substring 0 (String.length s) s = s.
Proof. induction s as [|a s IH]; simpl; [done |]. by rewrite IH. Qed.

Lemma unread_fresh s : unread {| buf := s; off := 0 |} = s.
Proof. unfold unread. simpl. by rewrite Nat.sub_0_r, substring_all. Qed.

(** The template of a configuration with a body points at the one buffer
    [createBaseRequest] made, which holds the body, unread; its
    [ContentLength] is the length of the body and its [GetBody] holds the
    body. *)
Lemma createBaseRequest_body config baseReq store :
  Body config <> EmptyString ->
  createBaseRequest validMethod url_Parse CanonicalMIMEHeaderKey TrimSpace config []
    = Some (baseReq, store) ->
  req_Body baseReq = Some 0 /\
  ContentLength baseReq = Z.of_nat (String.length (Body config)) /\
  GetBody baseReq = Some (Body config) /\
  store = [{| buf := Body config; off := 0 |}].
Proof.
  intros Hb. unfold createBaseRequest. destruct (decide (Body config = EmptyString)); [done |].
  unfold NewRequestWithContext.
  destruct (validMethod _); [| done]. destruct (url_Parse _); [| done].
  simpl. rewrite unread_fresh. destruct (decide (Body config = EmptyString)); [done |].
  intros [= <- <-].
  match goal with
  | |- context [foldl _ ?r0 _] =>
      destruct (custom_headers_body (Headers config) r0) as (-> & -> & ->)
  end.
  split_and!; [| | | done]; by repeat case_match.
Qed.




(** C9 at its failing inputs.  For every configuration with a non-empty
    body the copies of the template hold the one body reader the template
    holds.  The first copy that [client.Do] sends puts the body on the wire
    and leaves the reader empty for all of them; the next copy finds it
    empty, and on a fresh connection, which every connection is with
    keep-alive off, [client.Do] returns the error of a body of length 0
    against the content length, while on a reused connection the transport
    sends the body again from [GetBody]. *)
Theorem clones_share_body config baseReq store :
  Body config <> EmptyString ->
  createBaseRequest validMethod url_Parse CanonicalMIMEHeaderKey TrimSpace config []
    = Some (baseReq, store) ->
  let client := createHTTPClient config in
  let empty := [{| buf := EmptyString; off := 0 |}] in
  req_Body (Clone baseReq) = req_Body baseReq /\ req_Body baseReq = Some 0 /\
  (forall idle, Do client idle (Clone baseReq) store = (Sent (Body config), empty)) /\
  (forall idle,
     Do client idle (Clone baseReq) empty =
     if KeepAlive config && idle then (Sent (Body config), empty)
     else (BodyLengthError (Z.of_nat (String.length (Body config))) 0, empty)).
Proof.
  intros Hb Hc client empty.
  destruct (createBaseRequest_body config baseReq store Hb Hc) as (Hp & Hl & Hg & ->).
  assert (Z.of_nat (String.length (Body config)) <> 0%Z) as Hlen.
  { destruct (Body config); [done | simpl; lia]. }
  split_and!; [done | done | |].
  - intros idle. unfold Do, roundTrip, writeBody, Clone, read_all. simpl.
    rewrite Hp. simpl. rewrite unread_fresh, Hl. by rewrite decide_True.
  - intros idle. unfold Do, roundTrip, writeBody, Clone, read_all. simpl.
    rewrite Hp. simpl. rewrite Hl, Hg. rewrite decide_False by done.
    rewrite negb_involutive.
    destruct (KeepAlive config && idle); [| done]. by rewrite decide_True.
Qed.

End TemplateFacts.



Lemma clones_share_body_witness :
  match createBaseRequest letters_only no_control id id post_twice [] with
  | Some (baseReq, store) =>
      let client := createHTTPClient post_twice in
      Do client false (Clone baseReq) store
        = (Sent "name=test&id=1", [{| buf := EmptyString; off := 0 |}]) /\
      Do client true (Clone baseReq) [{| buf := EmptyString; off := 0 |}]
        = (BodyLengthError 14 0, [{| buf := EmptyString; off := 0 |}])
  | None => False
  end.
Proof.
  destruct (createBaseRequest letters_only no_control id id post_twice [])
    as [[baseReq store]|] eqn:E.
  - destruct (clones_share_body letters_only no_control id id post_twice baseReq store)
      as (_ & _ & H1 & H2).
    + discriminate.
    + exact E.
    + split; [exact (H1 false) | exact (H2 true)].
  - vm_compute in E. discriminate.
Defined.

Lemma conns_bounded t events :
  (0 < MaxConnsPerHost t)%Z -> (0 <= open (conns_after t events) <= MaxConnsPerHost t)%Z.
Proof.
  intros Hpos. unfold conns_after.
  assert (forall c, (0 <= open c <= MaxConnsPerHost t)%Z ->
                    (0 <= open (foldl (conn_step t) c events) <= MaxConnsPerHost t)%Z) as H.
  { induction events as [|e events IH]; intros c Hc; simpl; [done |].
    apply IH. destruct e; simpl.
    - unfold queueForDial. destruct (MaxConnsPerHost t <=? 0)%Z eqn:H0.
      + apply Z.leb_le in H0. lia.
      + destruct (open c <? MaxConnsPerHost t)%Z eqn:H1; simpl;
          [apply Z.ltb_lt in H1 |]; lia.
    - unfold decConnsPerHost. destruct (open c <=? 0)%Z eqn:H0; [done |].
      apply Z.leb_gt in H0.
      destruct ((0 <? MaxConnsPerHost t)%Z && (0 <? waiting c)%Z); simpl; lia. }
  apply H. simpl. lia.
Qed.

Lemma conns_unlimited t n :
  (MaxConnsPerHost t <= 0)%Z -> open (conns_after t (repeat ConnDial n)) = Z.of_nat n.
Proof.
  intros Hmax. unfold conns_after.
  assert (forall c, open (foldl (conn_step t) c (repeat ConnDial n))
                    = (open c + Z.of_nat n)%Z) as H.
  { induction n as [|n IH]; intros c; simpl; [lia |].
    rewrite IH. unfold queueForDial. apply Z.leb_le in Hmax. rewrite Hmax. simpl. lia. }
  rewrite H. simpl. lia.
Qed.

Lemma wrap64_fixed z : wrap64 z = z <-> int64_range z.
Proof.
  split; [intros <-; apply wrap64_range | apply wrap64_id].
Qed.

(** C10, as amended.  The transport's three connection limits are one
    number, the [int] product of the concurrency [C] and two, and the idle
    timeout is ninety seconds.  The limits are [2 * C] exactly when [2 * C]
    fits an [int].  For [C] of at least one with [2 * C] fitting an [int],
    the limits are [2 * C] and under [net/http]'s rule for connections per
    host no sequence of dials and closes has more than [2 * C] connections
    open, whatever the number of requests.  For [C] of zero or less (with
    [2 * C] fitting an [int]) the limit is not positive and every dial is let
    through. *)
Theorem transport_caps config :
  let C := Concurrency config in
  let t := ClientTransport (createHTTPClient config) in
  (MaxIdleConns t = MaxConnsPerHost t /\ MaxIdleConnsPerHost t = MaxConnsPerHost t /\
   IdleConnTimeout t = (90 * Second)%Z) /\
  (MaxConnsPerHost t = (2 * C)%Z <-> (min_int64 <= 2 * C <= max_int64)%Z) /\
  ((1 <= C)%Z -> (2 * C <= max_int64)%Z ->
   MaxIdleConns t = (2 * C)%Z /\ MaxIdleConnsPerHost t = (2 * C)%Z /\
   MaxConnsPerHost t = (2 * C)%Z /\
   forall events, (open (conns_after t events) <= 2 * C)%Z) /\
  ((min_int64 <= 2 * C <= 0)%Z ->
   forall n, open (conns_after t (repeat ConnDial n)) = Z.of_nat n).
Proof.
  intros C t. subst C t. simpl.
  replace (Concurrency config * 2)%Z with (2 * Concurrency config)%Z by lia.
  split_and!.
  - done.
  - done.
  - rewrite wrap64_id; [done |]. unfold int64_range, min_int64, max_int64, Second. lia.
  - apply wrap64_fixed.
  - intros HC Hmax.
    assert (wrap64 (2 * Concurrency config) = (2 * Concurrency config)%Z) as Hw.
    { apply wrap64_id. unfold int64_range, min_int64, max_int64 in *. lia. }
    rewrite Hw. split_and!; try done. intros events.
    pose proof (conns_bounded (ClientTransport (createHTTPClient config)) events) as HB.
    simpl in HB.
    replace (Concurrency config * 2)%Z with (2 * Concurrency config)%Z in HB by lia.
    rewrite Hw in HB. lia.
  - intros HC n.
    pose proof (conns_unlimited (ClientTransport (createHTTPClient config)) n) as HU.
    simpl in HU.
    replace (Concurrency config * 2)%Z with (2 * Concurrency config)%Z in HU by lia.
    apply HU. rewrite wrap64_id; [lia |].
    unfold int64_range, min_int64, max_int64 in *. lia.
Qed.

Lemma limits_wrap_or_lapse :
  MaxConnsPerHost (ClientTransport (createHTTPClient (config_of 100 (2 ^ 62) "")))
    = (- 2 ^ 63)%Z /\
  MaxConnsPerHost (ClientTransport (createHTTPClient (config_of 100 0 ""))) = 0%Z /\
  open (conns_after (ClientTransport (createHTTPClient (config_of 100 0 "")))
          (repeat ConnDial 7)) = 7%Z.
Proof.
  vm_compute. split_and!; reflexivity.
Qed.

Lemma transport_caps_witness :
  let t := ClientTransport (createHTTPClient (config_of 1000 100 "")) in
  MaxConnsPerHost t = 200%Z /\
  open (conns_after t (repeat ConnDial 1000)) = 200%Z.
Proof.
  pose proof (transport_caps (config_of 1000 100 "")) as (_ & _ & H & _).
  destruct H as (_ & _ & H & _).
  - vm_compute. discriminate.
  - vm_compute. discriminate.
  - split; [exact H | vm_compute; reflexivity].
Defined.

(** ** The sort of [printResults] *)

Lemma delete_insert_same (a : list Z) j x : delete j (<[j := x]> a) = delete j a.
Proof. revert j. induction a as [|z a IH]; intros [|j]; simpl; [done | done | done |]. by rewrite IH. Qed.

Lemma swap_perm (a : list Z) i j x y :
  i < j -> a !! i = Some x -> a !! j = Some y -> <[j := x]> (<[i := y]> a) ≡ₚ a.
Proof.
  revert i j. induction a as [|z a IH]; intros [|i] [|j] Hij Hi Hj; simplify_eq/=; try lia.
  - rewrite (delete_Permutation a j y Hj) at 2.
    rewrite (delete_Permutation (<[j := x]> a) j x).
    + rewrite delete_insert_same. apply Permutation_swap.
    + apply list_lookup_insert_eq. by eapply lookup_lt_Some.
  - f_equiv. apply IH; [lia | done | done].
Qed.

Lemma swap_length i j (a : list Z) : length (swap_if_greater i j a) = length a.
Proof.
  unfold swap_if_greater. destruct (a !! i), (a !! j); try done.
  destruct (_ <? _)%Z; [| done]. by rewrite !length_insert.
Qed.

Lemma swap_permutation i j (a : list Z) : i < j -> swap_if_greater i j a ≡ₚ a.
Proof.
  intros Hij. unfold swap_if_greater.
  destruct (a !! i) as [x|] eqn:Hi; [| done]. destruct (a !! j) as [y|] eqn:Hj; [| done].
  destruct (_ <? _)%Z; [| done]. by apply swap_perm.
Qed.

Lemma swap_lookup i j (a : list Z) x y m :
  i < j -> a !! i = Some x -> a !! j = Some y ->
  swap_if_greater i j a !! m =
  if decide (m = i) then Some (Z.min x y)
  else if decide (m = j) then Some (Z.max x y) else a !! m.
Proof.
  intros Hij Hi Hj. unfold swap_if_greater. rewrite Hi, Hj.
  pose proof (lookup_lt_Some _ _ _ Hi). pose proof (lookup_lt_Some _ _ _ Hj).
  destruct (y <? x)%Z eqn:Hlt; [apply Z.ltb_lt in Hlt | apply Z.ltb_ge in Hlt].
  - destruct (decide (m = i)) as [-> | Hmi].
    + rewrite list_lookup_insert_ne by lia. rewrite list_lookup_insert_eq by done.
      f_equal. lia.
    + destruct (decide (m = j)) as [-> | Hmj].
      * rewrite list_lookup_insert_eq by (by rewrite length_insert). f_equal. lia.
      * by rewrite !list_lookup_insert_ne by done.
  - destruct (decide (m = i)) as [-> | Hmi]; [rewrite Hi; f_equal; lia |].
    destruct (decide (m = j)) as [-> | Hmj]; [rewrite Hj; f_equal; lia | done].
Qed.

Lemma inner_steps i n (a : list Z) :
  S i + n <= length a -> prefix_le i a ->
  let a' := foldl (fun a j => swap_if_greater i j a) a (seq (S i) n) in
  length a' = length a /\ a' ≡ₚ a /\ prefix_le i a' /\
  (forall m x y, i < m < S i + n -> a' !! i = Some x -> a' !! m = Some y -> (x <= y)%Z).
Proof.
  intros Hn Hpre. induction n as [|n IH]; cbv zeta.
  - simpl. split_and!; try done. intros; lia.
  - rewrite seq_S, foldl_app. cbn [foldl]. cbv zeta in IH.
    destruct IH as (Hlen & Hperm & Hp & Hmin); [lia |].
    set (b := foldl (fun a j => swap_if_greater i j a) a (seq (S i) n)) in *.
    destruct (lookup_lt_is_Some_2 b i) as [x Hx]; [lia |].
    destruct (lookup_lt_is_Some_2 b (S (i + n))) as [y Hy]; [lia |].
    assert (i < S (i + n)) as Hij by lia.
    split_and!.
    + by rewrite swap_length.
    + by rewrite swap_permutation.
    + intros m1 m2 u v Hm1 Hm12.
      rewrite !(swap_lookup i (S (i + n)) b x y) by done.
      repeat case_decide; subst; intros; simplify_eq; try lia.
      * pose proof (Hp m1 i u x Hm1 ltac:(lia) ltac:(done) Hx).
        pose proof (Hp m1 (S (i + n)) u y Hm1 ltac:(lia) ltac:(done) Hy). lia.
      * pose proof (Hp m1 i u x Hm1 ltac:(lia) ltac:(done) Hx).
        pose proof (Hp m1 (S (i + n)) u y Hm1 ltac:(lia) ltac:(done) Hy). lia.
      * by eapply (Hp m1 m2).
    + intros m u v Hm.
      rewrite !(swap_lookup i (S (i + n)) b x y) by done.
      repeat case_decide; subst; intros; simplify_eq; try lia.
      pose proof (Hmin m x v ltac:(lia) Hx ltac:(done)). lia.
Qed.

Lemma sort_inner_spec i (a : list Z) :
  i < length a -> prefix_le i a ->
  length (sort_inner i a) = length a /\ sort_inner i a ≡ₚ a /\
  prefix_le (S i) (sort_inner i a).
Proof.
  intros Hi Hpre. unfold sort_inner.
  destruct (inner_steps i (length a - S i) a ltac:(lia) Hpre) as (Hlen & Hperm & Hp & Hmin).
  split_and!; try done.
  intros m1 m2 x y Hm1 Hm12 Hx Hy.
  destruct (decide (m1 = i)) as [-> | Hne].
  - apply (Hmin m2 x y); [| done | done].
    pose proof (lookup_lt_Some _ _ _ Hy) as Hlt. rewrite Hlen in Hlt. lia.
  - apply (Hp m1 m2 x y); [lia | done | done | done].
Qed.

Lemma outer_steps k (a : list Z) :
  k <= length a ->
  let a' := foldl (fun a i => sort_inner i a) a (seq 0 k) in
  length a' = length a /\ a' ≡ₚ a /\ prefix_le k a'.
Proof.
  intros Hk. induction k as [|k IH]; cbv zeta.
  - simpl. split_and!; try done. intros m1 m2 x y Hm. lia.
  - rewrite seq_S, foldl_app. cbn [foldl]. cbv zeta in IH. change (0 + k) with k.
    destruct IH as (Hlen & Hperm & Hp); [lia |].
    set (b := foldl (fun a i => sort_inner i a) a (seq 0 k)) in *.
    destruct (sort_inner_spec k b ltac:(lia) Hp) as (Hlen' & Hperm' & Hp').
    split_and!; [lia | by rewrite Hperm' | done].
Qed.

Lemma prefix_le_sorted (a : list Z) : prefix_le (length a) a -> StronglySorted Z.le a.
Proof.
  induction a as [|x a IH]; intros Hp; [constructor |].
  constructor.
  - apply IH. intros m1 m2 u v Hm1 Hm12 Hu Hv.
    apply (Hp (S m1) (S m2) u v); simpl; try done; lia.
  - apply Forall_forall. intros y Hy. apply list_elem_of_lookup in Hy as [m Hm].
    apply (Hp 0 (S m) x y); simpl; try done; lia.
Qed.

Lemma simple_sort_sorted_perm (a : list Z) :
  StronglySorted Z.le (simple_sort a) /\ simple_sort a ≡ₚ a.
Proof.
  unfold simple_sort.
  destruct (outer_steps (length a) a (le_n _)) as (Hlen & Hperm & Hp).
  split; [| done]. apply prefix_le_sorted. by rewrite Hlen.
Qed.

(** X12.  The exchange sort of [printResults] returns its input in
    ascending order: the result is sorted, has the same length and has the
    same elements, each as many times. *)
Theorem simple_sort_sorts (a : list Z) :
  StronglySorted Z.le (simple_sort a) /\ simple_sort a ≡ₚ a /\
  length (simple_sort a) = length a.
Proof.
  destruct (simple_sort_sorted_perm a) as [Hs Hp].
  split_and!; [done | done | by rewrite Hp].
Qed.

Lemma sorted_nodup_strict (l : list Z) :
  StronglySorted Z.le l -> NoDup l -> StronglySorted Z.lt l.
Proof.
  induction 1 as [|x l Hl IH Hx]; intros Hnd; [constructor |].
  apply NoDup_cons in Hnd as [Hnot Hnd]. constructor; [by apply IH |].
  rewrite Forall_forall in *. intros y Hy. specialize (Hx y Hy).
  assert (x <> y) by (intros ->; done). lia.
Qed.

Lemma omap_all_some (m : gmap Z Z) (ks : list Z) :
  Forall (fun k => is_Some (m !! k)) ks ->
  (omap (fun code => (fun count => (code, count)) <$> m !! code) ks).*1 = ks /\
  forall k v,
    (k, v) ∈ omap (fun code => (fun count => (code, count)) <$> m !! code) ks <->
    k ∈ ks /\ m !! k = Some v.
Proof.
  induction 1 as [|k ks [v Hv] _ [IH1 IH2]]; simpl.
  - split; [done |]. intros k v.
    split; [intros H; by apply elem_of_nil in H | intros [H _]; by apply elem_of_nil in H].
  - rewrite Hv. simpl. split; [f_equal; exact IH1 |].
    intros k' v'. rewrite !elem_of_cons. split.
    + intros [[= -> ->] | Hin]; [split; [by left | done] |].
      apply (proj1 (IH2 k' v')) in Hin as [? ?]. split; [by right | done].
    + intros [[-> | Hin] Hm]; [left; congruence |].
      right. by apply (proj2 (IH2 k' v')).
Qed.

(** X13.  Whatever order [StatusCodes.Range] visits the histogram in, the
    status-code table lists each bucket once, with its count, in strictly
    ascending order of status code. *)
Theorem status_lines_sorted st (ranged : list Z) :
  ranged ≡ₚ (map_to_list (StatusCodes st)).*1 ->
  StronglySorted Z.lt (status_lines st ranged).*1 /\
  status_lines st ranged ≡ₚ map_to_list (StatusCodes st).
Proof.
  intros Hr. unfold status_lines.
  destruct (simple_sort_sorted_perm ranged) as [Hs Hp].
  assert (NoDup (simple_sort ranged)) as Hnd.
  { rewrite Hp, Hr. apply NoDup_fst_map_to_list. }
  assert (forall k, k ∈ simple_sort ranged <-> is_Some (StatusCodes st !! k)) as Hdom.
  { intros k. rewrite Hp, Hr, list_elem_of_fmap. split.
    - intros [[k' v] [-> Hin]]. apply elem_of_map_to_list in Hin. by exists v.
    - intros [v Hv]. exists (k, v). split; [done |]. by apply elem_of_map_to_list. }
  destruct (omap_all_some (StatusCodes st) (simple_sort ranged)) as [H1 H2].
  { apply Forall_forall. intros k Hk. by apply Hdom. }
  split.
  - rewrite H1. by apply sorted_nodup_strict.
  - apply NoDup_Permutation.
    + apply (NoDup_fmap_1 fst). by rewrite H1.
    + apply NoDup_map_to_list.
    + intros [k v]. rewrite H2, elem_of_map_to_list. split; [tauto |].
      intros Hv. split; [| done]. apply Hdom. by exists v.
Qed.

(** ** Header strings *)

Lemma SplitN2_Some s k v :
  SplitN2 s = Some (k, v) ->
  s = String.append k (String ":" v) /\ ContainsByte k ":" = false.
Proof.
  revert k v. induction s as [|a s IH]; intros k v; simpl; [done |].
  destruct (Ascii.eqb a ":") eqn:Ha.
  - intros [= <- <-]. apply Ascii.eqb_eq in Ha. by subst.
  - destruct (SplitN2 s) as [[k' v']|]; [| done]. intros [= <- <-].
    destruct (IH k' v' eq_refl) as [-> Hk]. simpl. by rewrite Ha.
Qed.

Lemma SplitN2_None s : SplitN2 s = None -> ContainsByte s ":" = false.
Proof.
  induction s as [|a s IH]; simpl; [done |].
  destruct (Ascii.eqb a ":"); [done |].
  destruct (SplitN2 s) as [[k' v']|]; [done |]. intros _. by apply IH.
Qed.

Lemma SplitN2_append k v :
  ContainsByte k ":" = false -> SplitN2 (String.append k (String ":" v)) = Some (k, v).
Proof.
  induction k as [|a k IH]; simpl; [done |].
  destruct (Ascii.eqb a ":"); [done |]. simpl. intros Hk. by rewrite (IH Hk).
Qed.

(** X14.  The custom-header split cuts at the first colon: a header with a
    colon is its key, the colon and its value put together, and the key has
    no colon; a header is left whole exactly when it has no colon; and a key
    without colon followed by a colon and any value splits back into them. *)
Theorem header_split_first_colon s :
  match SplitN2 s with
  | Some (k, v) => s = String.append k (String ":" v) /\ ContainsByte k ":" = false
  | None => ContainsByte s ":" = false
  end /\
  forall k v, ContainsByte k ":" = false ->
    SplitN2 (String.append k (String ":" v)) = Some (k, v).
Proof.
  split; [| apply SplitN2_append].
  destruct (SplitN2 s) as [[k v]|] eqn:Hs; [by apply SplitN2_Some | by apply SplitN2_None].
Qed.

Section HeaderFacts.
Context (validMethod : string -> bool) (url_Parse : string -> option string).
Context (CanonicalMIMEHeaderKey : string -> string) (TrimSpace : string -> string).

Lemma createBaseRequest_headers config store req store' :
  createBaseRequest validMethod url_Parse CanonicalMIMEHeaderKey TrimSpace config store
    = Some (req, store') ->
  exists r0,
    req = foldl (add_custom_header CanonicalMIMEHeaderKey TrimSpace) r0 (Headers config).
Proof.
  unfold createBaseRequest.
  destruct (decide (Body config = EmptyString));
    (destruct (NewRequestWithContext _ _ _ _ _ _) as [r|]; [| done]);
    intros [= <- <-]; eauto.
Qed.

(** X15.  When the last custom header has a colon, the template carries
    under its normalised, trimmed key exactly its trimmed value: it replaces
    a default header, the detected content type and any earlier custom header
    of the same key. *)
Theorem custom_header_last_wins config store req store' hs h k v :
  createBaseRequest validMethod url_Parse CanonicalMIMEHeaderKey TrimSpace config store
    = Some (req, store') ->
  Headers config = hs ++ [h] -> SplitN2 h = Some (k, v) ->
  Header req !! CanonicalMIMEHeaderKey (TrimSpace k) = Some [TrimSpace v].
Proof.
  intros Hc Hh Hs. destruct (createBaseRequest_headers _ _ _ _ Hc) as [r0 ->].
  rewrite Hh, foldl_app. simpl. unfold add_custom_header at 1. rewrite Hs.
  unfold Header_Set. simpl. apply lookup_insert_eq.
Qed.

Lemma custom_headers_filter r hs :
  foldl (add_custom_header CanonicalMIMEHeaderKey TrimSpace) r hs =
  foldl (add_custom_header CanonicalMIMEHeaderKey TrimSpace) r
    (filter (fun h => ContainsByte h ":" = true) hs).
Proof.
  revert r. induction hs as [|h hs IH]; intros r; [done |]. simpl.
  destruct (ContainsByte h ":") eqn:Hc.
  - rewrite filter_cons_True by done. simpl. apply IH.
  - rewrite filter_cons_False by congruence. rewrite <- IH. f_equal.
    unfold add_custom_header. destruct (SplitN2 h) as [[k v]|] eqn:Hs; [| done].
    apply SplitN2_Some in Hs as [-> _]. exfalso. clear -Hc.
    induction k as [|a k IHk]; simpl in *.
    + done.
    + destruct (Ascii.eqb a ":"); [done | by apply IHk].
Qed.

(** X16.  Custom headers without a colon are dropped without an error:
    the template built is the one built from the headers that have a colon. *)
Theorem colonless_headers_dropped config store :
  createBaseRequest validMethod url_Parse CanonicalMIMEHeaderKey TrimSpace config store =
  createBaseRequest validMethod url_Parse CanonicalMIMEHeaderKey TrimSpace
    (set_Headers (filter (fun h => ContainsByte h ":" = true) (Headers config)) config)
    store.
Proof.
  unfold createBaseRequest. simpl.
  destruct (decide (Body config = EmptyString));
    (destruct (NewRequestWithContext _ _ _ _ _ _) as [r|]; [| done]);
    by rewrite custom_headers_filter.
Qed.

Lemma custom_headers_frame r hs key :
  (forall h k v, h ∈ hs -> SplitN2 h = Some (k, v) ->
                 CanonicalMIMEHeaderKey (TrimSpace k) <> key) ->
  Header (foldl (add_custom_header CanonicalMIMEHeaderKey TrimSpace) r hs) !! key
  = Header r !! key.
Proof.
  revert r. induction hs as [|h hs IH]; intros r Hk; [done |]. simpl.
  rewrite IH by (intros h' k v Hh; apply Hk; by right).
  unfold add_custom_header. destruct (SplitN2 h) as [[k v]|] eqn:Hs; [| done].
  unfold Header_Set. simpl. apply lookup_insert_ne. eapply Hk; [by left | done].
Qed.

(** X17.  A custom header only touches its own key: under any key that no
    custom header normalises to, the template carries what it would carry
    with no custom headers at all. *)
Theorem unrelated_headers_untouched config store req store' key :
  createBaseRequest validMethod url_Parse CanonicalMIMEHeaderKey TrimSpace config store
    = Some (req, store') ->
  (forall h k v, h ∈ Headers config -> SplitN2 h = Some (k, v) ->
                 CanonicalMIMEHeaderKey (TrimSpace k) <> key) ->
  exists req0,
    createBaseRequest validMethod url_Parse CanonicalMIMEHeaderKey TrimSpace
      (set_Headers [] config) store = Some (req0, store') /\
    Header req !! key = Header req0 !! key.
Proof.
  unfold createBaseRequest. simpl. intros Hc Hk.
  destruct (decide (Body config = EmptyString));
    (destruct (NewRequestWithContext _ _ _ _ _ _) as [r|]; [| done]);
    injection Hc as <- <-; eexists; (split; [done |]);
    by apply custom_headers_frame.
Qed.

(** X18.  The three default headers are on the template whenever no custom
    header replaces them, and [Connection: keep-alive] is among them whatever
    [config.KeepAlive] says: with keep-alive switched off the transport
    disables it while every request still asks for it. *)
Theorem default_headers_whatever_keepalive config store req store' :
  createBaseRequest validMethod url_Parse CanonicalMIMEHeaderKey TrimSpace config store
    = Some (req, store') ->
  (forall key, key ∈ ["User-Agent"; "Accept"; "Connection"; "Content-Type"]%string ->
               CanonicalMIMEHeaderKey key = key) ->
  (forall h k v, h ∈ Headers config -> SplitN2 h = Some (k, v) ->
                 CanonicalMIMEHeaderKey (TrimSpace k)
                   ∉ ["User-Agent"; "Accept"; "Connection"]%string) ->
  Header req !! "User-Agent"%string = Some ["Go-Load-Tester/1.24"%string] /\
  Header req !! "Accept"%string = Some ["*/*"%string] /\
  Header req !! "Connection"%string = Some ["keep-alive"%string] /\
  DisableKeepAlives (ClientTransport (createHTTPClient config)) = negb (KeepAlive config).
Proof.
  intros Hc Hcan Hk.
  assert (forall key, key ∈ ["User-Agent"; "Accept"; "Connection"]%string ->
            forall h k v, h ∈ Headers config -> SplitN2 h = Some (k, v) ->
                          CanonicalMIMEHeaderKey (TrimSpace k) <> key) as Hne.
  { intros key Hin h k v Hh Hs Heq. apply (Hk h k v Hh Hs). by rewrite Heq. }
  pose proof (Hcan "User-Agent"%string ltac:(set_solver)) as H1.
  pose proof (Hcan "Accept"%string ltac:(set_solver)) as H2.
  pose proof (Hcan "Connection"%string ltac:(set_solver)) as H3.
  pose proof (Hcan "Content-Type"%string ltac:(set_solver)) as H4.
  revert Hc. unfold createBaseRequest.
  destruct (decide (Body config = EmptyString));
    (destruct (NewRequestWithContext _ _ _ _ _ _) as [r|]; [| done]);
    intros Hc; injection Hc as <- <-;
    (split_and!; [| | | done]);
    (rewrite custom_headers_frame by (apply Hne; set_solver));
    repeat match goal with |- context [if ?b then _ else _] => destruct b end;
    unfold Header_Set; simpl; rewrite ?H1, ?H2, ?H3, ?H4;
    repeat (first [ by apply lookup_insert_eq | rewrite lookup_insert_ne by done ]).
Qed.

End HeaderFacts.

Lemma SplitByte_nonempty s sep : SplitByte s sep <> [].
Proof.
  destruct s as [|a s]; simpl; [done |].
  destruct (Ascii.eqb a sep); [done |]. by destruct (SplitByte s sep).
Qed.

Lemma SplitByte_join s sep : JoinByte (SplitByte s sep) sep = s.
Proof.
  induction s as [|a s IH]; simpl; [done |].
  destruct (Ascii.eqb a sep) eqn:Ha.
  - apply Ascii.eqb_eq in Ha. subst a.
    pose proof (SplitByte_nonempty s sep).
    destruct (SplitByte s sep) as [|p ps] eqn:Hs; [done |]. simpl in *. by rewrite IH.
  - destruct (SplitByte s sep) as [|p ps] eqn:Hs; [by apply SplitByte_nonempty in Hs |].
    destruct ps as [|q ps]; simpl in *; by rewrite <- IH.
Qed.

Lemma SplitByte_no_sep s sep :
  Forall (fun part => ContainsByte part sep = false) (SplitByte s sep).
Proof.
  induction s as [|a s IH]; simpl; [by repeat constructor |].
  destruct (Ascii.eqb a sep) eqn:Ha; [by constructor |].
  destruct (SplitByte s sep) as [|p ps]; [repeat constructor; simpl; by rewrite Ha |].
  apply Forall_cons in IH as [Hp Hps]. constructor; [| done]. simpl. by rewrite Ha.
Qed.

Lemma SplitByte_no_sep_id s sep : ContainsByte s sep = false -> SplitByte s sep = [s].
Proof.
  induction s as [|a s IH]; simpl; [done |].
  destruct (Ascii.eqb a sep); [done |]. simpl. intros Hs. by rewrite (IH Hs).
Qed.

Lemma SplitByte_append p rest sep :
  ContainsByte p sep = false ->
  SplitByte (String.append p (String sep rest)) sep = p :: SplitByte rest sep.
Proof.
  induction p as [|a p IH]; simpl.
  - intros _. by rewrite Ascii.eqb_refl.
  - destruct (Ascii.eqb a sep); [done |]. simpl. intros Hp. by rewrite (IH Hp).
Qed.

Lemma SplitByte_JoinByte parts sep :
  parts <> [] -> Forall (fun part => ContainsByte part sep = false) parts ->
  SplitByte (JoinByte parts sep) sep = parts.
Proof.
  induction parts as [|p parts IH]; intros Hne HF; [done |].
  apply Forall_cons in HF as [Hp HF]. destruct parts as [|q parts].
  - simpl. by apply SplitByte_no_sep_id.
  - change (JoinByte (p :: q :: parts) sep)
      with (String.append p (String sep (JoinByte (q :: parts) sep))).
    rewrite SplitByte_append by done. f_equal. by apply IH.
Qed.

(** X20.  The header flag: every header kept by [parseFlags] is free of
    semicolons and not blank; and, [strings.TrimSpace] leaving the empty
    string empty, a list of non-blank headers without semicolons joined by
    semicolons is read back as that list. *)
Theorem header_flag_round_trip (TrimSpace : string -> string) :
  (forall s,
     Forall (fun h => ContainsByte h ";" = false /\ TrimSpace h <> EmptyString)
       (parse_headers TrimSpace s)) /\
  (TrimSpace EmptyString = EmptyString ->
   forall hs,
     Forall (fun h => ContainsByte h ";" = false /\ TrimSpace h <> EmptyString) hs ->
     parse_headers TrimSpace (JoinByte hs ";") = hs).
Proof.
  split.
  - intros s. unfold parse_headers. destruct (decide (s = EmptyString)); [constructor |].
    apply Forall_forall. intros h Hh. apply list_elem_of_filter in Hh as [Ht Hin].
    split; [| done]. pose proof (SplitByte_no_sep s ";") as HF.
    rewrite Forall_forall in HF. by apply HF.
  - intros Hempty hs HF. unfold parse_headers.
    destruct hs as [|h hs]; [done |].
    assert (JoinByte (h :: hs) ";" <> EmptyString) as Hne.
    { apply Forall_cons in HF as [[_ Hh] _].
      destruct h as [|a h]; [congruence |]. by destruct hs. }
    destruct (decide (JoinByte (h :: hs) ";" = EmptyString)); [done |].
    rewrite SplitByte_JoinByte; [| done | eapply Forall_impl; [exact HF | by intros ? [? ?]]].
    clear -HF. induction HF as [|x l [_ Hx] _ IH]; [done |].
    rewrite filter_cons_True by done. by rewrite IH.
Qed.

(** ** The further properties at concrete inputs *)

Lemma counters_match_serial_witness :
  let st := stats (run (config_of 4 2 "") four_durations (sequential 4 2) init) in
  let serial := record_all (four_durations <$> seq 0 4) new_stats in
  TotalRequests st = TotalRequests serial /\
  SuccessfulRequests st = SuccessfulRequests serial /\
  FailedRequests st = FailedRequests serial /\
  TotalDuration st = TotalDuration serial /\
  MinDuration st = MinDuration serial /\
  MaxDuration st = MaxDuration serial.
Proof.
  apply (counters_match_serial (config_of 4 2 "") four_durations (sequential 4 2)).
  - vm_compute. discriminate.
  - vm_compute. reflexivity.
Defined.

Lemma histogram_keys_are_responses_witness :
  exists j, j < 100 /\ result (mostly_200 j) = Response 500.
Proof.
  apply (histogram_keys_are_responses (config_of 100 10 "") mostly_200
           (sequential 100 10) 500%Z 5%Z).
  vm_compute. reflexivity.
Defined.

Lemma counts_lag_at_most_workers_witness :
  let st := stats (run (config_of 10 3 "") always_200
                     (repeat TMain 17 ++ repeat (TWorker 0) 3 ++ repeat (TWorker 1) 3) init) in
  (SuccessfulRequests st + FailedRequests st <= TotalRequests st)%Z /\
  (TotalRequests st - (SuccessfulRequests st + FailedRequests st) <= 3)%Z.
Proof.
  pose proof (counts_lag_at_most_workers (config_of 10 3 "") always_200
    (repeat TMain 17 ++ repeat (TWorker 0) 3 ++ repeat (TWorker 1) 3)) as H.
  destruct H as (_ & _ & H1 & _ & H2).
  - vm_compute. split; discriminate.
  - split; [exact H1 | exact H2].
Defined.

Lemma no_worker_no_effect_witness :
  stats (run (config_of 1 0 "") always_200 (sequential 1 0) init) = new_stats.
Proof.
  pose proof (no_worker_no_effect (config_of 1 0 "") always_200) as [H _].
  - vm_compute. discriminate.
  - apply (H (sequential 1 0)).
Defined.

Lemma no_send_after_close_witness :
  Forall exited (workers (run (config_of 10 3 "") always_200 (sequential 10 3) init)).
Proof.
  pose proof (no_send_after_close (config_of 10 3 "") always_200 (sequential 10 3))
    as [H _].
  apply H. vm_compute. reflexivity.
Defined.

Lemma progress_every_hundred_witness :
  progress (run (config_of 250 2 "") always_200 (sequential 250 2) init) = [100; 200].
Proof.
  pose proof (progress_every_hundred (config_of 250 2 "") always_200 (sequential 250 2))
    as (_ & _ & H).
  destruct H as [_ H].
  - vm_compute. discriminate.
  - vm_compute. reflexivity.
  - rewrite H. vm_compute. reflexivity.
Defined.

Lemma single_worker_is_serial_witness :
  let st := stats (run (config_of 100 1 "") mostly_200 (sequential 100 1) init) in
  st = record_all (mostly_200 <$> seq 0 100) new_stats /\
  StatusCodes (record_all (mostly_200 <$> seq 0 100) new_stats) !! 200%Z = Some 95%Z /\
  StatusCodes (record_all (mostly_200 <$> seq 0 100) new_stats) !! 500%Z = Some 5%Z.
Proof.
  split.
  - apply (single_worker_is_serial (config_of 100 1 "") mostly_200 (sequential 100 1)).
    + reflexivity.
    + vm_compute. reflexivity.
  - vm_compute. split; reflexivity.
Defined.

Lemma status_lines_sorted_witness :
  let st := stats (run (config_of 100 1 "") mostly_200 (sequential 100 1) init) in
  status_lines st [500; 200]%Z ≡ₚ map_to_list (StatusCodes st) /\
  status_lines st [500; 200]%Z = [(200, 95); (500, 5)]%Z.
Proof.
  split.
  - apply (status_lines_sorted
             (stats (run (config_of 100 1 "") mostly_200 (sequential 100 1) init))
             [500; 200]%Z).
    vm_compute. reflexivity.
  - vm_compute. reflexivity.
Defined.

Lemma header_split_first_colon_witness :
  SplitN2 "Referer:http://localhost:3000/" = Some ("Referer", "http://localhost:3000/")%string.
Proof.
  pose proof (header_split_first_colon EmptyString) as [_ H].
  apply (H "Referer"%string "http://localhost:3000/"%string). reflexivity.
Defined.

Lemma custom_header_last_wins_witness :
  match createBaseRequest letters_only no_control id trim_spaces post_with_headers [] with
  | Some (req, _) => Header req !! "Content-Type"%string = Some ["text/csv"%string]
  | None => False
  end.
Proof.
  destruct (createBaseRequest letters_only no_control id trim_spaces post_with_headers [])
    as [[req store']|] eqn:E.
  - apply (custom_header_last_wins letters_only no_control id trim_spaces post_with_headers
             [] req store' ["Authorization: Bearer token"%string]
             "Content-Type: text/csv"%string "Content-Type"%string " text/csv"%string E);
      reflexivity.
  - vm_compute in E. discriminate.
Defined.

Lemma header_flag_round_trip_witness :
  parse_headers trim_spaces "Authorization:Bearer token;Content-Type:application/json"
  = ["Authorization:Bearer token"; "Content-Type:application/json"]%string.
Proof.
  pose proof (header_flag_round_trip trim_spaces) as [_ H].
  apply (H eq_refl ["Authorization:Bearer token"; "Content-Type:application/json"]%string).
  repeat constructor; discriminate.
Defined.

Lemma operations_bounded_witness : 2 <= 3 * 3 + 10 * (4 * 3 + 18) + 7.
Proof.
  apply (operations_bounded (config_of 10 3 "") always_200 [TMain; TMain]
           (run (config_of 10 3 "") always_200 [TMain; TMain] init)).
  econstructor; [reflexivity |]. econstructor; [reflexivity |]. constructor.
Defined.

Lemma sends_never_block_witness :
  is_Some (main_step (config_of 10 3 "")
             (run (config_of 10 3 "") always_200 (repeat TMain 6) init)).
Proof.
  pose proof (sends_never_block (config_of 10 3 "") always_200 (repeat TMain 6)) as [H _].
  apply (H 2). vm_compute. reflexivity.
Defined.

Lemma average_between_extremes_witness :
  let st := stats (run (config_of 4 2 "") four_durations (sequential 4 2) init) in
  (MinDuration st <= avgDuration st <= MaxDuration st)%Z /\
  avgDuration st = 41250000%Z.
Proof.
  split; [| vm_compute; reflexivity].
  apply (average_between_extremes (config_of 4 2 "") four_durations (sequential 4 2)).
  - vm_compute. split; discriminate.
  - vm_compute. discriminate.
  - intros j Hj. change (n_jobs (config_of 4 2 "")) with 4 in Hj.
    destruct j as [|[|[|[|j]]]]; [vm_compute; discriminate .. | lia].
  - vm_compute. discriminate.
  - vm_compute. reflexivity.
Defined.

Lemma unrelated_headers_untouched_witness :
  match createBaseRequest letters_only no_control id trim_spaces post_with_headers [] with
  | Some (req, _) => Header req !! "User-Agent"%string = Some ["Go-Load-Tester/1.24"%string]
  | None => False
  end.
Proof.
  destruct (createBaseRequest letters_only no_control id trim_spaces post_with_headers [])
    as [[req store']|] eqn:E.
  - destruct (unrelated_headers_untouched letters_only no_control id trim_spaces
                post_with_headers [] req store' "User-Agent"%string E)
      as (req0 & H0 & ->).
    + intros h k v Hh Hs. simpl in Hh.
      apply elem_of_cons in Hh as [-> | Hh];
        [| apply elem_of_cons in Hh as [-> | Hh]; [| by apply elem_of_nil in Hh]];
        vm_compute in Hs; injection Hs as <- <-; vm_compute; discriminate.
    + vm_compute in H0. injection H0 as <- _. vm_compute. reflexivity.
  - vm_compute in E. discriminate.
Defined.

Lemma default_headers_whatever_keepalive_witness :
  match createBaseRequest letters_only no_control id trim_spaces without_keepalive [] with
  | Some (req, _) =>
      Header req !! "Connection"%string = Some ["keep-alive"%string] /\
      DisableKeepAlives (ClientTransport (createHTTPClient without_keepalive)) = true
  | None => False
  end.
Proof.
  destruct (createBaseRequest letters_only no_control id trim_spaces without_keepalive [])
    as [[req store']|] eqn:E.
  - destruct (default_headers_whatever_keepalive letters_only no_control id trim_spaces
                without_keepalive [] req store' E) as (_ & _ & H3 & H4).
    + reflexivity.
    + intros h k v Hh. by apply elem_of_nil in Hh.
    + split; [exact H3 | exact H4].
  - vm_compute in E. discriminate.
Defined.

